(** * capx-tg: the Telegram init-data re-signer ([verifyInitData])

    A shallow embedding of [src/backend/controllers/verifyController.js]
    together with the platform objects it drives: JavaScript strings
    (UTF-16 code units), [URLSearchParams] as the URL Standard defines it
    (form-urlencoded parser and serializer, stable sort by code units) and
    Node's [crypto.createHmac] (HMAC-SHA256, FIPS 180-4 / RFC 2104). *)

From Stdlib Require Import NArith List Lia Bool String Ascii.
From Stdlib Require Import Permutation Sorted.
Import ListNotations.

Open Scope N_scope.

(* ================================================================== *)
(** ** JavaScript strings and byte buffers *)
(* ================================================================== *)

(** A JavaScript string is a sequence of UTF-16 code units; a [Buffer] is a
    sequence of octets.  Both are carried by [N]; code units are below
    [0x10000] and octets below [0x100].  The functions below are total: a
    number that is no code unit is read like a lone surrogate. *)
Definition jsstring := list N.
Definition bytes := list N.

(** An ASCII source literal such as ['hash'] as a JavaScript string. *)
Definition lit (s : string) : jsstring :=
  List.map N_of_ascii (list_ascii_of_string s).

Definition is_high (u : N) : bool := (0xD800 <=? u) && (u <=? 0xDBFF).
Definition is_low (u : N) : bool := (0xDC00 <=? u) && (u <=? 0xDFFF).

(** The replacement character U+FFFD and its UTF-8 form. *)
Definition REPLACEMENT : N := 0xFFFD.
Definition REPLACEMENT_UTF8 : bytes := [0xEF; 0xBF; 0xBD].

(** Strict equality [===] on strings and the relational comparison [a > b]:
    both work code unit by code unit. *)
Fixpoint js_eqb (a b : jsstring) : bool :=
  match a, b with
  | [], [] => true
  | x :: a', y :: b' => (x =? y) && js_eqb a' b'
  | _, _ => false
  end.

Fixpoint js_compare (a b : jsstring) : comparison :=
  match a, b with
  | [], [] => Eq
  | [], _ :: _ => Lt
  | _ :: _, [] => Gt
  | x :: a', y :: b' =>
      match x ?= y with
      | Eq => js_compare a' b'
      | c => c
      end
  end.

Definition js_gt (a b : jsstring) : bool :=
  match js_compare a b with Gt => true | _ => false end.

(** [a <= b] on strings: [a > b] is false. *)
Definition js_le (a b : jsstring) : Prop := js_gt a b = false.

(** [s.slice(0, -1)]: everything but the last code unit. *)
Definition slice_0_m1 (s : jsstring) : jsstring := removelast s.

(** WebIDL's conversion to [USVString], applied to every string argument of
    [URLSearchParams]: a surrogate that is not part of a pair becomes
    U+FFFD. *)
Fixpoint to_usv (s : jsstring) : jsstring :=
  match s with
  | [] => []
  | u :: t =>
      if is_high u then
        match t with
        | l :: t' =>
            if is_low l then u :: l :: to_usv t'
            else REPLACEMENT :: to_usv t
        | [] => [REPLACEMENT]
        end
      else if is_low u then REPLACEMENT :: to_usv t
      else if u <? 0x10000 then u :: to_usv t
      else REPLACEMENT :: to_usv t
  end.

(** A string without lone surrogates. *)
Fixpoint well_formed (s : jsstring) : bool :=
  match s with
  | [] => true
  | u :: t =>
      if is_high u then
        match t with
        | l :: t' => is_low l && well_formed t'
        | [] => false
        end
      else negb (is_low u) && (u <? 0x10000) && well_formed t
  end.

(** Strings of ASCII characters. *)
Definition ascii_only (s : jsstring) : Prop := Forall (fun u => u < 0x80) s.

(** UTF-8 form of one code point. *)
Definition utf8_of_code_point (c : N) : bytes :=
  if c <? 0x80 then [c]
  else if c <? 0x800 then [0xC0 + c / 0x40; 0x80 + c mod 0x40]
  else if c <? 0x10000 then
    [0xE0 + c / 0x1000; 0x80 + (c / 0x40) mod 0x40; 0x80 + c mod 0x40]
  else
    [0xF0 + c / 0x40000; 0x80 + (c / 0x1000) mod 0x40;
     0x80 + (c / 0x40) mod 0x40; 0x80 + c mod 0x40].

Definition code_point_of_pair (h l : N) : N :=
  0x10000 + (h - 0xD800) * 0x400 + (l - 0xDC00).

(** UTF-8 encode (Encoding Standard), as [Buffer.from(s, 'utf8')] and the
    form-urlencoded serializer apply it: surrogate pairs give four octets, a
    lone surrogate encodes as U+FFFD. *)
Fixpoint utf8_encode (s : jsstring) : bytes :=
  match s with
  | [] => []
  | u :: t =>
      if is_high u then
        match t with
        | l :: t' =>
            if is_low l
            then utf8_of_code_point (code_point_of_pair u l) ++ utf8_encode t'
            else REPLACEMENT_UTF8 ++ utf8_encode t
        | [] => REPLACEMENT_UTF8
        end
      else if is_low u then REPLACEMENT_UTF8 ++ utf8_encode t
      else if u <? 0x10000 then utf8_of_code_point u ++ utf8_encode t
      else REPLACEMENT_UTF8 ++ utf8_encode t
  end.

(** The code units of one decoded code point. *)
Definition units_of_code_point (c : N) : jsstring :=
  if c <? 0x10000 then [c]
  else [0xD800 + (c - 0x10000) / 0x400; 0xDC00 + (c - 0x10000) mod 0x400].

Definition in_range (lo hi b : N) : bool := (lo <=? b) && (b <=? hi).

(** Bounds of the second octet after lead octet [b0] (Encoding Standard,
    UTF-8 decoder: 0xE0 and 0xF0 raise the lower boundary, 0xED and 0xF4
    lower the upper one). *)
Definition lower_boundary (b0 : N) : N :=
  if b0 =? 0xE0 then 0xA0 else if b0 =? 0xF0 then 0x90 else 0x80.
Definition upper_boundary (b0 : N) : N :=
  if b0 =? 0xED then 0x9F else if b0 =? 0xF4 then 0x8F else 0xBF.

(** UTF-8 decode without BOM (Encoding Standard), in replacement mode: a
    malformed sequence yields U+FFFD and decoding resumes at the octet that
    broke it. *)
Fixpoint utf8_decode (bs : bytes) : jsstring :=
  match bs with
  | [] => []
  | b0 :: r0 =>
      if b0 <? 0x80 then b0 :: utf8_decode r0
      else if in_range 0xC2 0xDF b0 then
        match r0 with
        | [] => [REPLACEMENT]
        | b1 :: r1 =>
            if in_range 0x80 0xBF b1
            then ((b0 - 0xC0) * 0x40 + (b1 - 0x80)) :: utf8_decode r1
            else REPLACEMENT :: utf8_decode r0
        end
      else if in_range 0xE0 0xEF b0 then
        match r0 with
        | [] => [REPLACEMENT]
        | b1 :: r1 =>
            if in_range (lower_boundary b0) (upper_boundary b0) b1 then
              match r1 with
              | [] => [REPLACEMENT]
              | b2 :: r2 =>
                  if in_range 0x80 0xBF b2
                  then ((b0 - 0xE0) * 0x1000 + (b1 - 0x80) * 0x40 + (b2 - 0x80))
                         :: utf8_decode r2
                  else REPLACEMENT :: utf8_decode r1
              end
            else REPLACEMENT :: utf8_decode r0
        end
      else if in_range 0xF0 0xF4 b0 then
        match r0 with
        | [] => [REPLACEMENT]
        | b1 :: r1 =>
            if in_range (lower_boundary b0) (upper_boundary b0) b1 then
              match r1 with
              | [] => [REPLACEMENT]
              | b2 :: r2 =>
                  if in_range 0x80 0xBF b2 then
                    match r2 with
                    | [] => [REPLACEMENT]
                    | b3 :: r3 =>
                        if in_range 0x80 0xBF b3
                        then units_of_code_point
                               ((b0 - 0xF0) * 0x40000 + (b1 - 0x80) * 0x1000
                                + (b2 - 0x80) * 0x40 + (b3 - 0x80))
                               ++ utf8_decode r3
                        else REPLACEMENT :: utf8_decode r2
                    end
                  else REPLACEMENT :: utf8_decode r1
              end
            else REPLACEMENT :: utf8_decode r0
        end
      else REPLACEMENT :: utf8_decode r0
  end.

(* ================================================================== *)
(** ** SHA-256 and HMAC (Node's [crypto]) *)
(* ================================================================== *)

Module SHA256.

Definition mask32 : N := 0xFFFFFFFF.
Definition add32 (a b : N) : N := (a + b) mod 0x100000000.
Definition rotr (n x : N) : N :=
  N.land (N.lor (N.shiftr x n) (N.shiftl x (32 - n))) mask32.
Definition shr (n x : N) : N := N.shiftr x n.
Definition not32 (x : N) : N := N.lxor x mask32.

Definition Ch (x y z : N) : N := N.lxor (N.land x y) (N.land (not32 x) z).
Definition Maj (x y z : N) : N :=
  N.lxor (N.lxor (N.land x y) (N.land x z)) (N.land y z).
Definition Sigma0 (x : N) : N := N.lxor (N.lxor (rotr 2 x) (rotr 13 x)) (rotr 22 x).
Definition Sigma1 (x : N) : N := N.lxor (N.lxor (rotr 6 x) (rotr 11 x)) (rotr 25 x).
Definition sigma0 (x : N) : N := N.lxor (N.lxor (rotr 7 x) (rotr 18 x)) (shr 3 x).
Definition sigma1 (x : N) : N := N.lxor (N.lxor (rotr 17 x) (rotr 19 x)) (shr 10 x).

Definition K : list N :=
  [0x428A2F98; 0x71374491; 0xB5C0FBCF; 0xE9B5DBA5; 0x3956C25B; 0x59F111F1;
   0x923F82A4; 0xAB1C5ED5; 0xD807AA98; 0x12835B01; 0x243185BE; 0x550C7DC3;
   0x72BE5D74; 0x80DEB1FE; 0x9BDC06A7; 0xC19BF174; 0xE49B69C1; 0xEFBE4786;
   0x0FC19DC6; 0x240CA1CC; 0x2DE92C6F; 0x4A7484AA; 0x5CB0A9DC; 0x76F988DA;
   0x983E5152; 0xA831C66D; 0xB00327C8; 0xBF597FC7; 0xC6E00BF3; 0xD5A79147;
   0x06CA6351; 0x14292967; 0x27B70A85; 0x2E1B2138; 0x4D2C6DFC; 0x53380D13;
   0x650A7354; 0x766A0ABB; 0x81C2C92E; 0x92722C85; 0xA2BFE8A1; 0xA81A664B;
   0xC24B8B70; 0xC76C51A3; 0xD192E819; 0xD6990624; 0xF40E3585; 0x106AA070;
   0x19A4C116; 0x1E376C08; 0x2748774C; 0x34B0BCB5; 0x391C0CB3; 0x4ED8AA4A;
   0x5B9CCA4F; 0x682E6FF3; 0x748F82EE; 0x78A5636F; 0x84C87814; 0x8CC70208;
   0x90BEFFFA; 0xA4506CEB; 0xBEF9A3F7; 0xC67178F2].

(** Big-endian octets of [x], [n] of them. *)
Fixpoint be_bytes (n : nat) (x : N) : bytes :=
  match n with
  | O => []
  | S n' => be_bytes n' (x / 0x100) ++ [x mod 0x100]
  end.

Definition be_word (bs : bytes) : N :=
  fold_left (fun acc b => acc * 0x100 + b mod 0x100) bs 0.

(** Padding: 0x80, zeros up to 56 mod 64, then the bit length on 8 octets. *)
Definition pad (msg : bytes) : bytes :=
  let len := N.of_nat (List.length msg) in
  let zeros := N.to_nat ((119 - len mod 64) mod 64) in
  msg ++ [0x80] ++ repeat 0 zeros ++ be_bytes 8 (8 * len).

Fixpoint words (n : nat) (bs : bytes) : list N :=
  match n with
  | O => []
  | S n' => be_word (firstn 4 bs) :: words n' (skipn 4 bs)
  end.

(** The message schedule, most recent word first: [rw] holds
    W(t-1), W(t-2), ... *)
Fixpoint schedule (n : nat) (rw : list N) : list N :=
  match n with
  | O => rw
  | S n' =>
      let w := add32 (add32 (sigma1 (nth 1 rw 0)) (nth 6 rw 0))
                     (add32 (sigma0 (nth 14 rw 0)) (nth 15 rw 0)) in
      schedule n' (w :: rw)
  end.

Record regs := Regs { ra : N; rb : N; rc : N; rd : N; re : N; rf : N; rg : N; rh : N }.

Definition round (s : regs) (kw : N * N) : regs :=
  let t1 := add32 (add32 (add32 (rh s) (Sigma1 (re s))) (Ch (re s) (rf s) (rg s)))
                  (add32 (fst kw) (snd kw)) in
  let t2 := add32 (Sigma0 (ra s)) (Maj (ra s) (rb s) (rc s)) in
  Regs (add32 t1 t2) (ra s) (rb s) (rc s) (add32 (rd s) t1) (re s) (rf s) (rg s).

Definition compress (h : regs) (block : bytes) : regs :=
  let w := rev (schedule 48 (rev (words 16 block))) in
  let s := fold_left round (combine K w) h in
  Regs (add32 (ra h) (ra s)) (add32 (rb h) (rb s)) (add32 (rc h) (rc s))
       (add32 (rd h) (rd s)) (add32 (re h) (re s)) (add32 (rf h) (rf s))
       (add32 (rg h) (rg s)) (add32 (rh h) (rh s)).

Fixpoint blocks (n : nat) (h : regs) (bs : bytes) : regs :=
  match n with
  | O => h
  | S n' => blocks n' (compress h (firstn 64 bs)) (skipn 64 bs)
  end.

Definition init : regs :=
  Regs 0x6A09E667 0xBB67AE85 0x3C6EF372 0xA54FF53A
       0x510E527F 0x9B05688C 0x1F83D9AB 0x5BE0CD19.

Definition digest (msg : bytes) : bytes :=
  let p := pad msg in
  let h := blocks (Nat.div (List.length p) 64) init p in
  flat_map (be_bytes 4) [ra h; rb h; rc h; rd h; re h; rf h; rg h; rh h].

End SHA256.

(** RFC 2104 with SHA-256 (block size 64). *)
Definition hmac_sha256 (key msg : bytes) : bytes :=
  let k0 := if (64 <? N.of_nat (List.length key)) then SHA256.digest key else key in
  let k := k0 ++ repeat 0 (64 - List.length k0)%nat in
  let ipad := List.map (fun b => N.lxor (b mod 0x100) 0x36) k in
  let opad := List.map (fun b => N.lxor (b mod 0x100) 0x5c) k in
  SHA256.digest (opad ++ SHA256.digest (ipad ++ msg)).

Definition hex_digit (d : N) : N :=
  if d <? 10 then 48 + d else 87 + d.

(** Lowercase hexadecimal text of a buffer ([digest('hex')]). *)
Definition hex (bs : bytes) : jsstring :=
  flat_map (fun b => [hex_digit ((b / 16) mod 16); hex_digit (b mod 16)]) bs.

(* ================================================================== *)
(** ** application/x-www-form-urlencoded (URL Standard, section 5) *)
(* ================================================================== *)

Definition AMPERSAND : N := 38.  (* & *)
Definition EQUALS : N := 61.     (* = *)
Definition PLUS : N := 43.       (* + *)
Definition PERCENT : N := 37.    (* % *)
Definition SPACE : N := 32.
Definition QUESTION : N := 63.   (* ? *)
Definition LINE_FEED : N := 10.

Definition is_digit (b : N) : bool := in_range 48 57 b.
Definition is_upper_hex (b : N) : bool := in_range 65 70 b.
Definition is_lower_hex (b : N) : bool := in_range 97 102 b.
Definition is_hex_digit (b : N) : bool :=
  is_digit b || is_upper_hex b || is_lower_hex b.

Definition hex_value (b : N) : N :=
  if is_digit b then b - 48
  else if is_upper_hex b then b - 55
  else b - 87.

(** Percent-decode: a [%] that is not followed by two hexadecimal digits is
    kept as it is; nothing is ever rejected. *)
Fixpoint percent_decode (bs : bytes) : bytes :=
  match bs with
  | [] => []
  | b :: r =>
      if b =? PERCENT then
        match r with
        | h :: l :: r' =>
            if is_hex_digit h && is_hex_digit l
            then (hex_value h * 16 + hex_value l) :: percent_decode r'
            else b :: percent_decode r
        | _ => b :: percent_decode r
        end
      else b :: percent_decode r
  end.

(** Strictly split on a separator octet; the result is never empty. *)
Fixpoint split_on (sep : N) (bs : bytes) : list bytes :=
  match bs with
  | [] => [[]]
  | b :: r =>
      if b =? sep then [] :: split_on sep r
      else
        match split_on sep r with
        | seg :: segs => (b :: seg) :: segs
        | [] => [[b]]
        end
  end.

(** Name up to the first [=], value after it; no [=] means an empty value. *)
Fixpoint name_value (bs : bytes) : bytes * bytes :=
  match bs with
  | [] => ([], [])
  | b :: r =>
      if b =? EQUALS then ([], r)
      else let (n, v) := name_value r in (b :: n, v)
  end.

Definition plus_to_space (bs : bytes) : bytes :=
  List.map (fun b => if b =? PLUS then SPACE else b) bs.

Definition decode_component (bs : bytes) : jsstring :=
  utf8_decode (percent_decode (plus_to_space bs)).

Definition parse_sequence (sq : bytes) : jsstring * jsstring :=
  let (n, v) := name_value sq in (decode_component n, decode_component v).

Definition nonempty (bs : bytes) : bool :=
  match bs with [] => false | _ :: _ => true end.

(** The form-urlencoded parser: empty sequences between [&] are skipped. *)
Definition urlencoded_parse (input : bytes) : list (jsstring * jsstring) :=
  List.map parse_sequence (filter nonempty (split_on AMPERSAND input)).

(** Octets the serializer leaves as they are: ASCII alphanumerics and
    [*], [-], [.], [_]. *)
Definition is_unreserved (b : N) : bool :=
  is_digit b || in_range 65 90 b || in_range 97 122 b
  || (b =? 42) || (b =? 45) || (b =? 46) || (b =? 95).

Definition upper_hex_digit (d : N) : N :=
  if d <? 10 then 48 + d else 55 + d.

Definition percent_encode_octet (b : N) : bytes :=
  if b =? SPACE then [PLUS]
  else if is_unreserved b then [b]
  else [PERCENT; upper_hex_digit ((b / 16) mod 16); upper_hex_digit (b mod 16)].

Definition encode_component (s : jsstring) : bytes :=
  flat_map percent_encode_octet (utf8_encode s).

Definition serialize_pair (p : jsstring * jsstring) : bytes :=
  encode_component (fst p) ++ EQUALS :: encode_component (snd p).

(** The form-urlencoded serializer: [name=value] joined by [&]. *)
Fixpoint urlencoded_serialize (l : list (jsstring * jsstring)) : bytes :=
  match l with
  | [] => []
  | [p] => serialize_pair p
  | p :: rest => serialize_pair p ++ AMPERSAND :: urlencoded_serialize rest
  end.

(** Octets that can appear in an encoded component: none of them is [&],
    [=] or [?], all of them are ASCII. *)
Definition component_octet (b : N) : Prop :=
  b < 0x80 /\ b <> AMPERSAND /\ b <> EQUALS /\ b <> QUESTION.

(* ================================================================== *)
(** ** URLSearchParams *)
(* ================================================================== *)

Module URLSearchParams.

(** The object's list of name-value pairs, in order. *)
Definition t := list (jsstring * jsstring).

(** [new URLSearchParams(init)] for a string [init] (URL Standard, 6.2): the
    string is converted to USVString, one leading [?] is dropped, and the
    UTF-8 octets of the rest go through the form-urlencoded parser.  The
    constructor does not throw on a string.

    This is the Standard's parser.  Node's own decodes a component with
    [decodeURIComponent] and, where that throws, with
    [querystring.unescapeBuffer], which keeps the low octet of each raw
    code unit: on a component that holds both a raw non-ASCII unit and an
    escape [decodeURIComponent] rejects, it reads other pairs than the
    Standard's.  What is proved of the handler below is stated on the
    pairs the constructor returns. *)
Definition new (init : jsstring) : t :=
  let s := to_usv init in
  let s := match s with
           | c :: rest => if c =? QUESTION then rest else s
           | [] => s
           end in
  urlencoded_parse (utf8_encode s).

(** [get(name)]: the value of the first pair named [name], else [null]. *)
Fixpoint get (name : jsstring) (l : t) : option jsstring :=
  match l with
  | [] => None
  | (n, v) :: rest => if js_eqb n name then Some v else get name rest
  end.

(** [delete(name)]: removes every pair named [name]. *)
Definition delete (name : jsstring) (l : t) : t :=
  filter (fun p => negb (js_eqb (fst p) name)) l.

(** [append(name, value)]: both arguments are converted to USVString. *)
Definition append (name value : jsstring) (l : t) : t :=
  l ++ [(to_usv name, to_usv value)].

(** One step of the insertion sort, on the already sorted prefix held in
    reverse: pairs whose name is greater than the current one ([a[j] >
    curKey]) move one slot right, the current pair lands after the first
    one that is not greater. *)
Fixpoint insert_back (cur : jsstring * jsstring) (rprefix : t) : t :=
  match rprefix with
  | [] => [cur]
  | p :: rest =>
      if js_gt (fst p) (fst cur) then p :: insert_back cur rest
      else cur :: p :: rest
  end.

(** [sort()] (URL Standard, 6.2): "sort all name-value pairs by their
    names; sorting must be done by comparison of code units; the relative
    order between name-value pairs with equal names must be preserved".
    Node runs this insertion sort on short lists and a merge sort on long
    ones; a stable sort has one result only ([sort_unique] below). *)
Definition sort (l : t) : t :=
  rev (fold_left (fun rprefix cur => insert_back cur rprefix) l []).

(** [entries()] iterates the pairs in list order. *)
Definition entries (l : t) : list (jsstring * jsstring) := l.

(** [toString()]: the serializer's ASCII output as a string. *)
Definition toString (l : t) : jsstring := urlencoded_serialize l.

End URLSearchParams.

Abbreviation entry := (jsstring * jsstring)%type.

(** A pair of strings without lone surrogates. *)
Definition well_formed_pair (p : entry) : Prop :=
  well_formed (fst p) = true /\ well_formed (snd p) = true.

(** The test "is named [k]". *)
Definition named (k : jsstring) (p : entry) : bool := js_eqb (fst p) k.

(** The values carried under the name [k], in order. *)
Definition values_of (k : jsstring) (l : list entry) : list jsstring :=
  List.map snd (filter (named k) l).

(** Names in ascending code-unit order. *)
Definition name_le (p q : entry) : Prop := js_le (fst p) (fst q).
Definition name_ge (p q : entry) : Prop := name_le q p.
Definition sorted_by_name (l : list entry) : Prop := StronglySorted name_le l.

(** The whole insertion loop, started on a reversed prefix [acc]. *)
Definition insertion_pass (l acc : list entry) : list entry :=
  fold_left (fun rprefix cur => URLSearchParams.insert_back cur rprefix) l acc.

(* ================================================================== *)
(** ** crypto.createHmac *)
(* ================================================================== *)

(** Completion of a statement sequence inside [try]: a value, or a thrown
    exception. *)
Inductive completion (A : Type) : Type :=
| Normal (a : A)
| Throw.
Arguments Normal {A} a.
Arguments Throw {A}.

Definition bind {A B} (c : completion A) (k : A -> completion B) : completion B :=
  match c with
  | Normal a => k a
  | Throw => Throw
  end.

Notation "x <- c ;; k" := (bind c (fun x => k))
  (at level 61, c at next level, right associativity).

Module Hmac.

Inductive algorithm := sha256.

(** An [Hmac] object: its key and the data fed so far. *)
Record t := Make { key : bytes; data : bytes }.

(** [createHmac(alg, key)] with a string key (its UTF-8 octets) ... *)
Definition create_with_string (alg : algorithm) (k : jsstring) : t :=
  Make (utf8_encode k) [].

(** ... and with a [Buffer] key. *)
Definition create_with_buffer (alg : algorithm) (k : bytes) : t :=
  Make k [].

(** [update(data)]: a string is fed as UTF-8; [undefined] is an
    [ERR_INVALID_ARG_TYPE] TypeError. *)
Definition update (h : t) (d : option jsstring) : completion t :=
  match d with
  | Some s => Normal (Make (key h) (data h ++ utf8_encode s))
  | None => Throw
  end.

(** [digest()]: the raw MAC as a [Buffer]. *)
Definition digest (h : t) : bytes := hmac_sha256 (key h) (data h).

(** [digest('hex')]. *)
Definition digest_hex (h : t) : jsstring := hex (digest h).

End Hmac.

(* ================================================================== *)
(** ** The controller: [verifyInitData] *)
(* ================================================================== *)

(** [process.env]: a variable is a string or [undefined]. *)
Record env := Env {
  BOT_TOKEN : option jsstring;
  CLIENT_ID : option jsstring;
  CLIENT_SECRET : option jsstring
}.

(** The three responses the handler can send. *)
Inductive response :=
| Json200 (initData : jsstring)  (* res.json({ success: true, initData }) *)
| Json401                        (* 401 { success: false, message: 'Invalid InitData' } *)
| Json500.                       (* 500 { success: false, message: 'Server error' } *)

(** [String(v)] of an environment value, as an argument conversion applies
    it: [undefined] reads "undefined". *)
Definition ToString (v : option jsstring) : jsstring :=
  match v with
  | Some s => s
  | None => lit "undefined"
  end.

(** The [for (const [key, value] of urlParams.entries())] loop, appending
    [`${key}=${value}\n`] each round, followed by [slice(0, -1)]. *)
Definition dataCheckString (urlParams : URLSearchParams.t) : jsstring :=
  slice_0_m1
    (fold_left (fun acc kv => acc ++ fst kv ++ EQUALS :: snd kv ++ [LINE_FEED])
               (URLSearchParams.entries urlParams) []).

(** [hash !== calculatedHash], with [hash] possibly [null]. *)
Definition strict_neq (hash : option jsstring) (calculated : jsstring) : bool :=
  match hash with
  | Some h => negb (js_eqb h calculated)
  | None => true
  end.

(** The body of the [try] block, lines 6-57.  [initData] is the string the
    JSON body carries under that name. *)
Definition verifyInitData_try (e : env) (initData : jsstring) : completion response :=
  let urlParams := URLSearchParams.new initData in
  let hash := URLSearchParams.get (lit "hash") urlParams in
  let urlParams := URLSearchParams.delete (lit "hash") urlParams in
  let urlParams := URLSearchParams.sort urlParams in
  let dcs := dataCheckString urlParams in
  secret <- Hmac.update (Hmac.create_with_string Hmac.sha256 (lit "WebAppData")) (BOT_TOKEN e) ;;
  h <- Hmac.update (Hmac.create_with_buffer Hmac.sha256 (Hmac.digest secret)) (Some dcs) ;;
  let calculatedHash := Hmac.digest_hex h in
  if strict_neq hash calculatedHash then Normal Json401
  else
    let clientId := CLIENT_ID e in
    let clientSecret := CLIENT_SECRET e in
    let urlParams := URLSearchParams.append (lit "client_id") (ToString clientId) urlParams in
    let urlParams := URLSearchParams.sort urlParams in
    let dcs := dataCheckString urlParams in
    centralSecret <- Hmac.update (Hmac.create_with_string Hmac.sha256 (lit "WebAppData")) clientSecret ;;
    h <- Hmac.update (Hmac.create_with_buffer Hmac.sha256 (Hmac.digest centralSecret)) (Some dcs) ;;
    let centralHash := Hmac.digest_hex h in
    let urlParams := URLSearchParams.append (lit "hash") centralHash urlParams in
    Normal (Json200 (URLSearchParams.toString urlParams)).

(** The handler: whatever the [try] block throws is answered with 500. *)
Definition verifyInitData (e : env) (initData : jsstring) : response :=
  match verifyInitData_try e initData with
  | Normal r => r
  | Throw => Json500
  end.

(** Lines 13-19 as one function of the parsed parameters: drop [hash], sort,
    build the check string. *)
Definition canonicalize (urlParams : URLSearchParams.t) : jsstring :=
  dataCheckString
    (URLSearchParams.sort (URLSearchParams.delete (lit "hash") urlParams)).

(** The pairs the handler signs on the way out (lines 38-39). *)
Definition reissued_params (e : env) (initData : jsstring) : URLSearchParams.t :=
  URLSearchParams.sort
    (URLSearchParams.append (lit "client_id") (ToString (CLIENT_ID e))
       (URLSearchParams.sort
          (URLSearchParams.delete (lit "hash") (URLSearchParams.new initData)))).

(* ================================================================== *)
(** ** The specification's vocabulary *)
(* ================================================================== *)

(** [derive_key] and [sign] of section 4.2, in the specification's words. *)
Definition derive_key (secret : jsstring) : bytes :=
  hmac_sha256 (utf8_encode (lit "WebAppData")) (utf8_encode secret).

Definition sign (check_string : jsstring) (derived_key : bytes) : jsstring :=
  hex (hmac_sha256 derived_key (utf8_encode check_string)).

Definition verify (check_string : jsstring) (derived_key : bytes)
    (candidate : jsstring) : bool :=
  js_eqb (sign check_string derived_key) candidate.

(** What a party holding [secret] does with the pairs of a credential it
    receives: take the [hash] pair out, canonicalize the rest, verify. *)
Definition pairs_verify (secret : jsstring) (pairs : URLSearchParams.t) : bool :=
  match URLSearchParams.get (lit "hash") pairs with
  | Some h => verify (canonicalize pairs) (derive_key secret) h
  | None => false
  end.

Definition verifies_under (secret : jsstring) (credential : jsstring) : bool :=
  pairs_verify secret (URLSearchParams.new credential).

(** Two different messages with the same HMAC-SHA256 under [key]. *)
Definition hmac_collision (key m1 m2 : bytes) : Prop :=
  m1 <> m2 /\ hmac_sha256 key m1 = hmac_sha256 key m2.

(** [l'] is [l] with the value of one pair named [k] changed from [c] to
    [v]. *)
Inductive one_changed (k c v : jsstring) : list entry -> list entry -> Prop :=
| changed_here (t : list entry) :
    one_changed k c v ((k, c) :: t) ((k, v) :: t)
| changed_later (p : entry) (t t' : list entry) :
    one_changed k c v t t' -> one_changed k c v (p :: t) (p :: t').

(** [key=value]. *)
Definition render (p : entry) : jsstring := fst p ++ EQUALS :: snd p.

(** The code units the loop writes: every pair weighs its rendering plus
    the newline. *)
Definition weight (l : list entry) : nat :=
  List.length (List.concat (List.map (fun p => render p ++ [LINE_FEED]) l)).

(** Lines joined by a single newline, none after the last. *)
Fixpoint join_lines (ls : list jsstring) : jsstring :=
  match ls with
  | [] => []
  | [x] => x
  | x :: rest => x ++ LINE_FEED :: join_lines rest
  end.

(** The canonical check string of section 4.1 for a given strict order [gt]
    on keys: remove the signature field, sort stably by key, render and
    join. *)
Fixpoint stable_insert (gt : jsstring -> jsstring -> bool) (p : entry)
    (l : list entry) : list entry :=
  match l with
  | [] => [p]
  | q :: rest =>
      if gt (fst p) (fst q) then q :: stable_insert gt p rest
      else p :: q :: rest
  end.

Definition stable_sort (gt : jsstring -> jsstring -> bool) (l : list entry) : list entry :=
  fold_right (stable_insert gt) [] l.

Definition check_string_spec (gt : jsstring -> jsstring -> bool)
    (pairs : list entry) : jsstring :=
  join_lines
    (List.map render
       (stable_sort gt (filter (fun p => negb (named (lit "hash") p)) pairs))).

(** Byte-wise ordering of keys: their UTF-8 octets compared one by one. *)
Definition bytewise_gt (a b : jsstring) : bool :=
  js_gt (utf8_encode a) (utf8_encode b).

(** "The wire form cannot be decoded": some [%] is not followed by two
    hexadecimal digits (section 7, unparsable percent-encoding). *)
Fixpoint bad_escape (s : jsstring) : bool :=
  match s with
  | [] => false
  | c :: rest =>
      if c =? PERCENT then
        match rest with
        | h :: l :: _ => negb (is_hex_digit h && is_hex_digit l) || bad_escape rest
        | _ => true
        end
      else bad_escape rest
  end.

(* ================================================================== *)
(** ** Worked inputs *)
(* ================================================================== *)

(** The scenario of section 8: secrets [S1] and [S2], client [CID]. *)
Definition example_env : env :=
  Env (Some (lit "S1")) (Some (lit "CID")) (Some (lit "S2")).

Definition example_credential : jsstring :=
  lit "auth_date=1700000000&query_id=AAA&user=%7B%22id%22%3A1%7D&hash=1bdf239322ae281643614503a6aff6f3cc157df59f584f81a4691228b5c9006e".

Definition example_reissued : jsstring :=
  lit "auth_date=1700000000&client_id=CID&query_id=AAA&user=%7B%22id%22%3A1%7D&hash=9b6d2c5df2cbb29f0770def935d9927928d3cb2ec8dbc03e518d820be6981bb7".

(** The same credential with one character of [query_id] flipped. *)
Definition tampered_credential : jsstring :=
  lit "auth_date=1700000000&query_id=AAB&user=%7B%22id%22%3A1%7D&hash=1bdf239322ae281643614503a6aff6f3cc157df59f584f81a4691228b5c9006e".

(** Two keys outside ASCII: U+FB03 (one code unit, three octets) and
    U+1F308 (a surrogate pair, four octets). *)
Definition key_ffi : jsstring := [0xFB03].
Definition key_rainbow : jsstring := [0xD83C; 0xDF08].

Definition astral_credential : jsstring :=
  lit "%EF%AC%83=1&%F0%9F%8C%88=2&hash=4032a6a120a32f4920c5af4d07eb32dc3d0b88292f7109147229fd3e4c988436".

Definition astral_reissued : jsstring :=
  lit "client_id=CID&%F0%9F%8C%88=2&%EF%AC%83=1&hash=992a3efc32d1cc139ec6eae341a55d4bc6d1bf0f5c9d87e971e0cb8f0c6245e7".

(** A credential whose value holds a [%] that starts no escape. *)
Definition bad_escape_credential : jsstring :=
  lit "a=%ZZ&hash=78fea412e058ad3fbf8a0e3aa59ba8587335b9c1f57b7da11c47d390b58a1531".

Definition bad_escape_reissued : jsstring :=
  lit "a=%25ZZ&client_id=CID&hash=1f445313660275e2617405ed580589f9a26d9a5cc34ce461e95c8c26402acb06".

(** Both secrets set but empty, no client identifier. *)
Definition empty_env : env := Env (Some []) None (Some []).

Definition empty_env_credential : jsstring :=
  lit "a=1&hash=435de22926e1b3f64010e7925e3f601497ced52a691f50d51261d1965c19c7ae".

Definition empty_env_reissued : jsstring :=
  lit "a=1&client_id=undefined&hash=2b394d4d41edec0575bc3143f54eaf67052f3c93bfed86b02d9fd51924d0c2ed".

(** A client identifier that contains [=]. *)
Definition equals_env : env :=
  Env (Some (lit "S1")) (Some (lit "a=b")) (Some (lit "S2")).

Definition equals_credential : jsstring :=
  lit "hash=04fdd51102240cc9cc5b5f5adb3796f7e4e5866e2008fc4502b95fa4bdd2cad2".

Definition equals_reissued : jsstring :=
  lit "client_id=a%3Db&hash=befacca560cb1604f1e5a5634a197255f221cf02dd5045033af3550e12c08a11".

(** [equals_reissued] with the [=] moved from the value into the name. *)
Definition equals_altered : jsstring :=
  lit "client_id%3Da=b&hash=befacca560cb1604f1e5a5634a197255f221cf02dd5045033af3550e12c08a11".

Definition small_credential : jsstring :=
  lit "b=1&a=2&hash=eaedd5a1b0afe9f102891df106f8a8a5b06f960c9e40bfc8f31db690cfb6865a".

Definition small_reissued : jsstring :=
  lit "a=2&b=1&client_id=CID&hash=f3ec4274e7e42f298763e6b39d08026e14dba3b5e7e08de512ef5237ba3c482a".

(** [small_credential] with a second [hash] pair behind the signed one. *)
Definition two_hash_credential : jsstring :=
  lit "b=1&a=2&hash=eaedd5a1b0afe9f102891df106f8a8a5b06f960c9e40bfc8f31db690cfb6865a&hash=00".

(** "The input credential's pairs minus its original hash pair", in the
    specification's words: the pairs without the first one named [hash],
    the pair whose value line 11 reads and line 27 compares. *)
Fixpoint minus_original_hash (l : list entry) : list entry :=
  match l with
  | [] => []
  | p :: rest =>
      if named (lit "hash") p then rest else p :: minus_original_hash rest
  end.

(* ================================================================== *)
(** ** Further vocabulary and inputs *)
(* ================================================================== *)

(** The code units [toString] can write: ASCII letters and digits, [*],
    [-], [.], [_], and the four marks [%], [+], [=], [&]. *)
Definition wire_unit (u : N) : bool :=
  is_unreserved u || (u =? PERCENT) || (u =? PLUS) || (u =? EQUALS)
  || (u =? AMPERSAND).

(** Sixty-four lowercase hexadecimal digits: what [digest('hex')] of an
    HMAC-SHA256 looks like. *)
Definition hash_shaped (h : jsstring) : bool :=
  Nat.eqb (List.length h) 64
  && forallb (fun u => is_digit u || is_lower_hex u) h.

(** [example_credential] with its pairs in another order and a second
    [hash] pair behind the first. *)
Definition reordered_credential : jsstring :=
  lit "user=%7B%22id%22%3A1%7D&hash=1bdf239322ae281643614503a6aff6f3cc157df59f584f81a4691228b5c9006e&query_id=AAA&hash=00&auth_date=1700000000".

(** [example_credential] with one more pair. *)
Definition padded_credential : jsstring :=
  lit "auth_date=1700000000&is_admin=1&query_id=AAA&user=%7B%22id%22%3A1%7D&hash=1bdf239322ae281643614503a6aff6f3cc157df59f584f81a4691228b5c9006e".

(** [small_credential] with its hash in upper case. *)
Definition uppercase_hash_credential : jsstring :=
  lit "b=1&a=2&hash=EAEDD5A1B0AFE9F102891DF106F8A8A5B06F960C9E40BFC8F31DB690CFB6865A".

(** [small_credential] with [b=1] folded into the value of [a] behind a
    newline. *)
Definition merged_credential : jsstring :=
  lit "a=2%0Ab%3D1&hash=eaedd5a1b0afe9f102891df106f8a8a5b06f960c9e40bfc8f31db690cfb6865a".

(** A credential, signed under [S1], that brings a [client_id] of its own. *)
Definition own_client_id_credential : jsstring :=
  lit "q=1&client_id=EVIL&hash=2688f528f0059f044583b4de65da5ab37b5bef57e215b4abef0f1be6fdfe551e".

Definition own_client_id_reissued : jsstring :=
  lit "client_id=EVIL&client_id=CID&q=1&hash=72c2972da2b4214eff2031a9dafb209a4147fd9b7e945eaa08ac6e7f2e543dc9".

(** A second re-signer, whose bot token is the first one's client secret. *)
Definition downstream_env : env :=
  Env (Some (lit "S2")) (Some (lit "CID2")) (Some (lit "S3")).

(** The pairs of [example_credential], signed under another bot token,
    [T9], and an environment that holds it. *)
Definition other_token_env : env :=
  Env (Some (lit "T9")) (Some (lit "CID")) (Some (lit "S2")).

Definition other_token_credential : jsstring :=
  lit "query_id=AAA&auth_date=1700000000&user=%7B%22id%22%3A1%7D&hash=945bc3d26adfa95a839e3fd660be782d0a64b1014d829270690042c9d32e46b5".

(** No client identifier configured. *)
Definition no_client_id_env : env :=
  Env (Some (lit "S1")) None (Some (lit "S2")).

Definition no_client_id_reissued : jsstring :=
  lit "a=2&b=1&client_id=undefined&hash=695d751ffbb414087402108f5929fee276707c8836735aa69497b8d012d4f5db".

(* ================================================================== *)
(** ** Facts about strings *)
(* ================================================================== *)

Lemma js_eqb_eq (a b : jsstring) : js_eqb a b = true <-> a = b.
Proof.
  revert b; induction a as [|x a IH]; intros [|y b]; simpl; split;
    try congruence; try reflexivity.
  - intros H. apply andb_true_iff in H as [Hx Hr].
    apply N.eqb_eq in Hx. apply IH in Hr. congruence.
  - intros H. injection H as -> ->. rewrite N.eqb_refl. simpl. now apply IH.
Qed.

Lemma js_eqb_refl (a : jsstring) : js_eqb a a = true.
Proof. now apply js_eqb_eq. Qed.

Lemma js_eqb_neq (a b : jsstring) : js_eqb a b = false <-> a <> b.
Proof.
  split.
  - intros H E. apply js_eqb_eq in E. congruence.
  - intros H. destruct (js_eqb a b) eqn:E; [|reflexivity].
    apply js_eqb_eq in E. contradiction.
Qed.

Lemma js_compare_eq (a b : jsstring) : js_compare a b = Eq -> a = b.
Proof.
  revert b; induction a as [|x a IH]; intros [|y b]; simpl; try congruence.
  destruct (x ?= y) eqn:E; try discriminate.
  apply N.compare_eq in E. intros H. apply IH in H. congruence.
Qed.

Lemma js_compare_refl (a : jsstring) : js_compare a a = Eq.
Proof. induction a as [|x a IH]; simpl; [reflexivity|]. now rewrite N.compare_refl. Qed.

Lemma js_compare_antisym (a b : jsstring) :
  js_compare b a = CompOpp (js_compare a b).
Proof.
  revert b; induction a as [|x a IH]; intros [|y b]; simpl; try reflexivity.
  rewrite (N.compare_antisym x y).
  destruct (x ?= y); simpl; auto.
Qed.

Lemma js_compare_trans (c : comparison) (a b d : jsstring) :
  js_compare a b = c -> js_compare b d = c -> js_compare a d = c.
Proof.
  revert b d; induction a as [|x a IH]; intros [|y b] [|z d]; simpl;
    try congruence.
  destruct (x ?= y) eqn:Exy; destruct (y ?= z) eqn:Eyz;
    try (intros; congruence).
  - apply N.compare_eq in Exy, Eyz. subst. rewrite N.compare_refl. apply IH.
  - apply N.compare_eq in Exy. subst. now rewrite Eyz.
  - apply N.compare_eq in Exy. subst. now rewrite Eyz.
  - apply N.compare_eq in Eyz. subst. now rewrite Exy.
  - intros <- _. change (x < y) in Exy. change (y < z) in Eyz.
    assert (H : (x ?= z) = Lt) by (apply N.compare_lt_iff; lia). now rewrite H.
  - apply N.compare_eq in Eyz. subst. now rewrite Exy.
  - intros <- _. change (x > y) in Exy. change (y > z) in Eyz.
    assert (H : (x ?= z) = Gt) by (apply N.compare_gt_iff; lia). now rewrite H.
Qed.

Lemma js_le_refl (a : jsstring) : js_le a a.
Proof. unfold js_le, js_gt. now rewrite js_compare_refl. Qed.

Lemma js_le_total (a b : jsstring) : js_gt a b = true -> js_le b a.
Proof.
  unfold js_le, js_gt. rewrite (js_compare_antisym a b).
  destruct (js_compare a b); simpl; congruence.
Qed.

Lemma js_le_antisym (a b : jsstring) : js_le a b -> js_le b a -> a = b.
Proof.
  unfold js_le, js_gt. rewrite (js_compare_antisym a b).
  destruct (js_compare a b) eqn:E; simpl; try congruence.
  intros _ _. now apply js_compare_eq.
Qed.

Lemma js_le_trans (a b c : jsstring) : js_le a b -> js_le b c -> js_le a c.
Proof.
  unfold js_le, js_gt.
  destruct (js_compare a b) eqn:Eab; try discriminate;
  destruct (js_compare b c) eqn:Ebc; try discriminate; intros _ _.
  - apply js_compare_eq in Eab, Ebc. subst. now rewrite js_compare_refl.
  - apply js_compare_eq in Eab. subst. now rewrite Ebc.
  - apply js_compare_eq in Ebc. subst. now rewrite Eab.
  - now rewrite (js_compare_trans Lt a b c).
Qed.

(* ================================================================== *)
(** ** UTF-8: encoding then decoding a well-formed string *)
(* ================================================================== *)

(** Boolean comparisons as propositions, in a hypothesis or in the goal. *)
Ltac prop_tests_in H :=
  repeat first
    [ rewrite andb_true_iff in H | rewrite andb_false_iff in H
    | rewrite orb_true_iff in H | rewrite orb_false_iff in H
    | rewrite negb_true_iff in H | rewrite negb_false_iff in H
    | rewrite N.leb_le in H | rewrite N.leb_gt in H
    | rewrite N.ltb_lt in H | rewrite N.ltb_ge in H
    | rewrite N.eqb_eq in H | rewrite N.eqb_neq in H ].

Ltac prop_tests :=
  repeat first
    [ rewrite andb_true_iff | rewrite andb_false_iff
    | rewrite orb_true_iff | rewrite orb_false_iff
    | rewrite negb_true_iff | rewrite negb_false_iff
    | rewrite N.leb_le | rewrite N.leb_gt
    | rewrite N.ltb_lt | rewrite N.ltb_ge
    | rewrite N.eqb_eq | rewrite N.eqb_neq ].

Ltac decide_test := unfold is_high, is_low, in_range; prop_tests; lia.

(** Resolve the test at the head of the left-hand side. *)
Ltac head_test :=
  match goal with
  | |- (if ?c then _ else _) = _ =>
      first [ replace c with true by (symmetry; decide_test)
            | replace c with false by (symmetry; decide_test) ];
      cbv iota
  end.

(** Unfold the decoder once, on its first octet only. *)
Ltac decode_step :=
  match goal with
  | |- utf8_decode (?b :: ?r) = _ =>
      let r0 := fresh "r0" in
      let E := fresh "E" in
      remember r as r0 eqn:E; cbn [utf8_decode]; subst r0; cbv iota
  end.

Ltac eqb_tests :=
  repeat match goal with
    | |- context [N.eqb ?a ?b] =>
        first [ replace (N.eqb a b) with true by (symmetry; decide_test)
              | replace (N.eqb a b) with false by (symmetry; decide_test) ]
    end;
  cbv iota.

(** The base-64 digits of a code point, as the encoder cuts them. *)
Lemma digits64 (c : N) :
  exists d0 d1 d2 d3,
    c = ((d3 * 64 + d2) * 64 + d1) * 64 + d0 /\ d0 < 64 /\ d1 < 64 /\ d2 < 64 /\
    c mod 0x40 = d0 /\ (c / 0x40) mod 0x40 = d1 /\ c / 0x40 = (d3 * 64 + d2) * 64 + d1 /\
    (c / 0x1000) mod 0x40 = d2 /\ c / 0x1000 = d3 * 64 + d2 /\ c / 0x40000 = d3.
Proof.
  exists (c mod 64), ((c / 64) mod 64), ((c / 64 / 64) mod 64), (c / 64 / 64 / 64).
  change 0x1000 with (64 * 64). change 0x40000 with (64 * 64 * 64).
  rewrite <- !N.Div0.div_div.
  pose proof (N.Div0.div_mod c 64). pose proof (N.Div0.div_mod (c / 64) 64).
  pose proof (N.Div0.div_mod (c / 64 / 64) 64).
  pose proof (N.mod_lt c 64). pose proof (N.mod_lt (c / 64) 64).
  pose proof (N.mod_lt (c / 64 / 64) 64).
  repeat split; lia.
Qed.

Lemma decode_2 (d1 d0 : N) (r : bytes) :
  2 <= d1 < 32 -> d0 < 64 ->
  utf8_decode ((0xC0 + d1) :: (0x80 + d0) :: r) = (d1 * 64 + d0) :: utf8_decode r.
Proof.
  intros. decode_step. unfold in_range. repeat head_test. f_equal. lia.
Qed.

Lemma decode_3 (d2 d1 d0 : N) (r : bytes) :
  d2 < 16 -> d1 < 64 -> d0 < 64 ->
  0x800 <= (d2 * 64 + d1) * 64 + d0 ->
  is_high ((d2 * 64 + d1) * 64 + d0) = false ->
  is_low ((d2 * 64 + d1) * 64 + d0) = false ->
  utf8_decode ((0xE0 + d2) :: (0x80 + d1) :: (0x80 + d0) :: r)
  = ((d2 * 64 + d1) * 64 + d0) :: utf8_decode r.
Proof.
  intros H2 H1 H0 Hlo Hh Hl. unfold is_high, is_low in Hh, Hl.
  prop_tests_in Hh. prop_tests_in Hl.
  decode_step. unfold in_range, lower_boundary, upper_boundary.
  destruct (N.eq_dec d2 0); [| destruct (N.eq_dec d2 13)];
    eqb_tests; repeat head_test; f_equal; lia.
Qed.

Lemma decode_4 (d3 d2 d1 d0 : N) (r : bytes) :
  d2 < 64 -> d1 < 64 -> d0 < 64 ->
  0x10000 <= ((d3 * 64 + d2) * 64 + d1) * 64 + d0 < 0x110000 ->
  utf8_decode ((0xF0 + d3) :: (0x80 + d2) :: (0x80 + d1) :: (0x80 + d0) :: r)
  = units_of_code_point (((d3 * 64 + d2) * 64 + d1) * 64 + d0) ++ utf8_decode r.
Proof.
  intros H2 H1 H0 Hc.
  decode_step. unfold in_range, lower_boundary, upper_boundary.
  assert (Hd3 : d3 <= 4) by lia.
  destruct (N.eq_dec d3 0); [| destruct (N.eq_dec d3 4)];
    eqb_tests; repeat head_test; do 2 f_equal; lia.
Qed.

Lemma decode_encode_code_point (c : N) (r : bytes) :
  c < 0x110000 -> is_high c = false -> is_low c = false ->
  utf8_decode (utf8_of_code_point c ++ r) = units_of_code_point c ++ utf8_decode r.
Proof.
  intros Hc Hh Hl. unfold utf8_of_code_point.
  destruct (digits64 c) as (d0 & d1 & d2 & d3 & E & B0 & B1 & B2 & M0 & M1 & Q1 & M2 & Q2 & Q3).
  rewrite M0, M1, M2, Q3.
  destruct (N.ltb_spec c 0x80); [| destruct (N.ltb_spec c 0x800);
    [| destruct (N.ltb_spec c 0x10000)]].
  - unfold units_of_code_point. replace (c <? 0x10000) with true by (symmetry; decide_test).
    cbn [app]. decode_step. now head_test.
  - unfold units_of_code_point. replace (c <? 0x10000) with true by (symmetry; decide_test).
    replace (c / 0x40) with d1 by lia.
    cbn [app]. rewrite decode_2 by lia. f_equal. lia.
  - unfold units_of_code_point. replace (c <? 0x10000) with true by (symmetry; decide_test).
    replace (c / 0x1000) with d2 by lia.
    assert (Ec : c = (d2 * 64 + d1) * 64 + d0) by lia.
    cbn [app]. rewrite decode_3; try lia.
    + now rewrite <- Ec.
    + now rewrite <- Ec.
    + now rewrite <- Ec.
  - cbn [app]. rewrite decode_4 by lia. now rewrite <- E.
Qed.

Lemma units_of_pair (h l : N) :
  is_high h = true -> is_low l = true ->
  units_of_code_point (code_point_of_pair h l) = [h; l].
Proof.
  unfold is_high, is_low, units_of_code_point, code_point_of_pair.
  intros Hh Hl. prop_tests_in Hh. prop_tests_in Hl.
  replace (0x10000 + (h - 0xD800) * 0x400 + (l - 0xDC00) <? 0x10000) with false
    by (symmetry; decide_test).
  replace (0x10000 + (h - 0xD800) * 0x400 + (l - 0xDC00) - 0x10000)
    with ((h - 0xD800) * 0x400 + (l - 0xDC00)) by lia.
  rewrite N.div_add_l by lia. rewrite N.div_small by lia.
  rewrite N.add_comm with (n := (h - 0xD800) * 0x400), N.Div0.mod_add.
  rewrite N.mod_small by lia. f_equal; [lia | f_equal; lia].
Qed.

Lemma pair_is_code_point (h l : N) :
  is_high h = true -> is_low l = true ->
  code_point_of_pair h l < 0x110000
  /\ is_high (code_point_of_pair h l) = false
  /\ is_low (code_point_of_pair h l) = false.
Proof.
  unfold is_high, is_low, code_point_of_pair.
  intros Hh Hl. prop_tests_in Hh. prop_tests_in Hl.
  repeat split; [lia | decide_test | decide_test].
Qed.

(** Induction over a string two units at a time. *)
Lemma list_ind2 {A} (P : list A -> Prop) :
  P [] -> (forall x, P [x]) ->
  (forall x y l, P l -> P (y :: l) -> P (x :: y :: l)) ->
  forall l, P l.
Proof.
  intros H0 H1 H2 l.
  enough (P l /\ forall x, P (x :: l)) by tauto.
  induction l as [|y l [IH1 IH2]]; split; auto.
Qed.

Lemma well_formed_tail (u : N) (t : jsstring) :
  is_high u = false -> well_formed (u :: t) = true ->
  is_low u = false /\ u < 0x10000 /\ well_formed t = true.
Proof.
  intros Hu. cbn [well_formed]. rewrite Hu. intros H. prop_tests_in H. tauto.
Qed.

(** Decoding the UTF-8 form of a string without lone surrogates gives the
    string back. *)
Lemma utf8_decode_encode_app (s : jsstring) :
  well_formed s = true ->
  forall r, utf8_decode (utf8_encode s ++ r) = s ++ utf8_decode r.
Proof.
  induction s as [| x | x y l IHl IHyl] using list_ind2; intros Hwf r.
  - reflexivity.
  - destruct (is_high x) eqn:Hx.
    + cbn [well_formed] in Hwf. now rewrite Hx in Hwf.
    + apply well_formed_tail in Hwf as (Hl & Hlt & _); [|assumption].
      cbn [utf8_encode]. rewrite Hx, Hl.
      replace (x <? 0x10000) with true by (symmetry; decide_test).
      rewrite app_nil_r, decode_encode_code_point by (assumption || lia).
      unfold units_of_code_point.
      now replace (x <? 0x10000) with true by (symmetry; decide_test).
  - destruct (is_high x) eqn:Hx.
    + cbn [well_formed] in Hwf. rewrite Hx in Hwf.
      apply andb_true_iff in Hwf as [Hy Hwf].
      cbn [utf8_encode]. rewrite Hx, Hy.
      destruct (pair_is_code_point x y Hx Hy) as (Hc & Hh & Hl).
      rewrite <- app_assoc, decode_encode_code_point by assumption.
      rewrite units_of_pair by assumption. cbn [app]. now rewrite IHl.
    + apply well_formed_tail in Hwf as (Hl & Hlt & Hwf); [|assumption].
      change (utf8_encode (x :: y :: l))
        with (if is_high x then
                if is_low y
                then utf8_of_code_point (code_point_of_pair x y) ++ utf8_encode l
                else REPLACEMENT_UTF8 ++ utf8_encode (y :: l)
              else if is_low x then REPLACEMENT_UTF8 ++ utf8_encode (y :: l)
              else if x <? 0x10000 then utf8_of_code_point x ++ utf8_encode (y :: l)
              else REPLACEMENT_UTF8 ++ utf8_encode (y :: l)).
      rewrite Hx, Hl.
      replace (x <? 0x10000) with true by (symmetry; decide_test).
      rewrite <- app_assoc, decode_encode_code_point by (assumption || lia).
      unfold units_of_code_point.
      replace (x <? 0x10000) with true by (symmetry; decide_test).
      cbn [app]. now rewrite IHyl.
Qed.

Lemma utf8_decode_encode (s : jsstring) :
  well_formed s = true -> utf8_decode (utf8_encode s) = s.
Proof.
  intros H. rewrite <- (app_nil_r (utf8_encode s)).
  rewrite utf8_decode_encode_app by assumption. apply app_nil_r.
Qed.

(* ================================================================== *)
(** ** Well-formed strings *)
(* ================================================================== *)

Lemma well_formed_plain (u : N) (t : jsstring) :
  u < 0x10000 -> is_high u = false -> is_low u = false ->
  well_formed (u :: t) = well_formed t.
Proof.
  intros Hu Hh Hl. cbn [well_formed]. rewrite Hh, Hl.
  now replace (u <? 0x10000) with true by (symmetry; decide_test).
Qed.

Lemma well_formed_units (c : N) (t : jsstring) :
  0x10000 <= c < 0x110000 ->
  well_formed (units_of_code_point c ++ t) = well_formed t.
Proof.
  intros Hc. unfold units_of_code_point.
  replace (c <? 0x10000) with false by (symmetry; decide_test).
  pose proof (N.Div0.div_mod (c - 0x10000) 0x400).
  pose proof (N.mod_lt (c - 0x10000) 0x400).
  set (q := (c - 0x10000) / 0x400) in *. set (m := (c - 0x10000) mod 0x400) in *.
  cbn [app well_formed]. unfold is_high, is_low.
  replace ((0xD800 <=? 0xD800 + q) && (0xD800 + q <=? 0xDBFF)) with true
    by (symmetry; decide_test).
  replace ((0xDC00 <=? 0xDC00 + m) && (0xDC00 + m <=? 0xDFFF)) with true
    by (symmetry; decide_test).
  reflexivity.
Qed.

(** Whatever the octets, the decoder returns a string without lone
    surrogates. *)
Lemma utf8_decode_well_formed_fuel (n : nat) :
  forall bs, (List.length bs <= n)%nat -> well_formed (utf8_decode bs) = true.
Proof.
  induction n as [|n IH]; intros [|b0 r0] Hlen; try reflexivity;
    cbn [List.length] in Hlen; [lia|].
  remember r0 as t0 eqn:E0. cbn [utf8_decode]. unfold in_range.
  assert (IH0 : well_formed (utf8_decode t0) = true) by (apply IH; lia).
  destruct (N.ltb_spec b0 0x80).
  { rewrite well_formed_plain; [assumption| lia | decide_test | decide_test ]. }
  destruct ((0xC2 <=? b0) && (b0 <=? 0xDF)) eqn:T2.
  { prop_tests_in T2. destruct t0 as [|b1 r1]; [reflexivity|].
    destruct ((0x80 <=? b1) && (b1 <=? 0xBF)) eqn:C1; [|assumption].
    prop_tests_in C1.
    rewrite well_formed_plain; [apply IH; cbn [List.length] in *; lia
                               | lia | decide_test | decide_test ]. }
  destruct ((0xE0 <=? b0) && (b0 <=? 0xEF)) eqn:T3.
  { prop_tests_in T3. destruct t0 as [|b1 r1]; [reflexivity|].
    destruct ((lower_boundary b0 <=? b1) && (b1 <=? upper_boundary b0)) eqn:C1;
      [|assumption].
    assert (IH1 : well_formed (utf8_decode r1) = true)
      by (apply IH; cbn [List.length] in *; lia).
    destruct r1 as [|b2 r2]; [reflexivity|].
    destruct ((0x80 <=? b2) && (b2 <=? 0xBF)) eqn:C2; [|assumption].
    prop_tests_in C2. unfold lower_boundary, upper_boundary in C1.
    destruct (N.eqb_spec b0 0xE0); destruct (N.eqb_spec b0 0xED);
      destruct (N.eqb_spec b0 0xF0); destruct (N.eqb_spec b0 0xF4);
      try lia; prop_tests_in C1;
      (rewrite well_formed_plain; [apply IH; cbn [List.length] in *; lia
                                  | lia | decide_test | decide_test ]). }
  destruct ((0xF0 <=? b0) && (b0 <=? 0xF4)) eqn:T4; [|assumption].
  prop_tests_in T4. destruct t0 as [|b1 r1]; [reflexivity|].
  destruct ((lower_boundary b0 <=? b1) && (b1 <=? upper_boundary b0)) eqn:C1;
    [|assumption].
  assert (IH1 : well_formed (utf8_decode r1) = true)
    by (apply IH; cbn [List.length] in *; lia).
  destruct r1 as [|b2 r2]; [reflexivity|].
  destruct ((0x80 <=? b2) && (b2 <=? 0xBF)) eqn:C2; [|assumption].
  assert (IH2 : well_formed (utf8_decode r2) = true)
    by (apply IH; cbn [List.length] in *; lia).
  destruct r2 as [|b3 r3]; [reflexivity|].
  destruct ((0x80 <=? b3) && (b3 <=? 0xBF)) eqn:C3; [|assumption].
  prop_tests_in C2. prop_tests_in C3. unfold lower_boundary, upper_boundary in C1.
  destruct (N.eqb_spec b0 0xE0); destruct (N.eqb_spec b0 0xED);
    destruct (N.eqb_spec b0 0xF0); destruct (N.eqb_spec b0 0xF4);
    try lia; prop_tests_in C1;
    (rewrite well_formed_units; [apply IH; cbn [List.length] in *; lia | lia]).
Qed.

Lemma utf8_decode_well_formed (bs : bytes) : well_formed (utf8_decode bs) = true.
Proof. now apply (utf8_decode_well_formed_fuel (List.length bs)). Qed.

Lemma to_usv_well_formed (s : jsstring) : well_formed (to_usv s) = true.
Proof.
  induction s as [| x | x y l IHl IHyl] using list_ind2.
  - reflexivity.
  - cbn [to_usv]. destruct (is_high x) eqn:Hh; [reflexivity|].
    destruct (is_low x) eqn:Hl; [reflexivity|].
    destruct (N.ltb_spec x 0x10000); [|reflexivity].
    now rewrite well_formed_plain.
  - change (to_usv (x :: y :: l))
      with (if is_high x then
              if is_low y then x :: y :: to_usv l
              else REPLACEMENT :: to_usv (y :: l)
            else if is_low x then REPLACEMENT :: to_usv (y :: l)
            else if x <? 0x10000 then x :: to_usv (y :: l)
            else REPLACEMENT :: to_usv (y :: l)).
    destruct (is_high x) eqn:Hh.
    + destruct (is_low y) eqn:Hy; [|assumption].
      cbn [well_formed]. now rewrite Hh, Hy.
    + destruct (is_low x) eqn:Hl; [assumption|].
      destruct (N.ltb_spec x 0x10000); [|assumption].
      now rewrite well_formed_plain.
Qed.

Lemma to_usv_id (s : jsstring) : well_formed s = true -> to_usv s = s.
Proof.
  induction s as [| x | x y l IHl IHyl] using list_ind2; intros Hwf.
  - reflexivity.
  - destruct (is_high x) eqn:Hh.
    + cbn [well_formed] in Hwf. now rewrite Hh in Hwf.
    + apply well_formed_tail in Hwf as (Hl & Hlt & _); [|assumption].
      cbn [to_usv]. rewrite Hh, Hl.
      now replace (x <? 0x10000) with true by (symmetry; decide_test).
  - change (to_usv (x :: y :: l))
      with (if is_high x then
              if is_low y then x :: y :: to_usv l
              else REPLACEMENT :: to_usv (y :: l)
            else if is_low x then REPLACEMENT :: to_usv (y :: l)
            else if x <? 0x10000 then x :: to_usv (y :: l)
            else REPLACEMENT :: to_usv (y :: l)).
    destruct (is_high x) eqn:Hh.
    + cbn [well_formed] in Hwf. rewrite Hh in Hwf.
      apply andb_true_iff in Hwf as [Hy Hwf]. rewrite Hy. now rewrite IHl.
    + apply well_formed_tail in Hwf as (Hl & Hlt & Hwf); [|assumption].
      rewrite Hl. replace (x <? 0x10000) with true by (symmetry; decide_test).
      now rewrite IHyl.
Qed.

Lemma ascii_well_formed (s : jsstring) : ascii_only s -> well_formed s = true.
Proof.
  induction 1 as [|u t Hu _ IH]; [reflexivity|].
  rewrite well_formed_plain; [assumption | lia | |]; unfold is_high, is_low; decide_test.
Qed.

Lemma ascii_utf8 (s : jsstring) : ascii_only s -> utf8_encode s = s.
Proof.
  induction 1 as [|u t Hu _ IH]; [reflexivity|].
  cbn [utf8_encode]. unfold is_high, is_low.
  replace ((0xD800 <=? u) && (u <=? 0xDBFF)) with false by (symmetry; decide_test).
  replace ((0xDC00 <=? u) && (u <=? 0xDFFF)) with false by (symmetry; decide_test).
  replace (u <? 0x10000) with true by (symmetry; decide_test).
  unfold utf8_of_code_point.
  replace (u <? 0x80) with true by (symmetry; decide_test).
  cbn [app]. now rewrite IH.
Qed.

Lemma ascii_to_usv (s : jsstring) : ascii_only s -> to_usv s = s.
Proof. intros H. now apply to_usv_id, ascii_well_formed. Qed.

(** The encoder emits octets. *)
Lemma utf8_of_code_point_octets (c : N) :
  c < 0x110000 -> Forall (fun b => b < 0x100) (utf8_of_code_point c).
Proof.
  intros Hc. unfold utf8_of_code_point.
  destruct (digits64 c) as (d0 & d1 & d2 & d3 & E & B0 & B1 & B2 & M0 & M1 & Q1 & M2 & Q2 & Q3).
  rewrite M0, M1, M2, Q3.
  destruct (N.ltb_spec c 0x80); [| destruct (N.ltb_spec c 0x800);
    [| destruct (N.ltb_spec c 0x10000)]]; repeat constructor; lia.
Qed.

Lemma utf8_encode_octets (s : jsstring) : Forall (fun b => b < 0x100) (utf8_encode s).
Proof.
  assert (R : Forall (fun b => b < 0x100) REPLACEMENT_UTF8)
    by (repeat constructor; reflexivity).
  induction s as [| x | x y l IHl IHyl] using list_ind2.
  - constructor.
  - cbn [utf8_encode]. destruct (is_high x); [assumption|].
    destruct (is_low x); [now rewrite app_nil_r|].
    destruct (N.ltb_spec x 0x10000); rewrite app_nil_r; [|assumption].
    apply utf8_of_code_point_octets. lia.
  - change (utf8_encode (x :: y :: l))
      with (if is_high x then
              if is_low y
              then utf8_of_code_point (code_point_of_pair x y) ++ utf8_encode l
              else REPLACEMENT_UTF8 ++ utf8_encode (y :: l)
            else if is_low x then REPLACEMENT_UTF8 ++ utf8_encode (y :: l)
            else if x <? 0x10000 then utf8_of_code_point x ++ utf8_encode (y :: l)
            else REPLACEMENT_UTF8 ++ utf8_encode (y :: l)).
    destruct (is_high x) eqn:Hh.
    + destruct (is_low y) eqn:Hy; apply Forall_app; split; try assumption.
      apply utf8_of_code_point_octets. now apply pair_is_code_point.
    + destruct (is_low x); [apply Forall_app; now split|].
      destruct (N.ltb_spec x 0x10000); apply Forall_app; split; try assumption.
      apply utf8_of_code_point_octets. lia.
Qed.

Lemma utf8_encode_inj (a b : jsstring) :
  well_formed a = true -> well_formed b = true ->
  utf8_encode a = utf8_encode b -> a = b.
Proof.
  intros Ha Hb E. rewrite <- (utf8_decode_encode a Ha), <- (utf8_decode_encode b Hb).
  now rewrite E.
Qed.

(* ================================================================== *)
(** ** The form-urlencoded serializer and parser are inverse *)
(* ================================================================== *)

Ltac unfold_chars :=
  unfold AMPERSAND, EQUALS, PLUS, PERCENT, SPACE, QUESTION, LINE_FEED,
    hex_value, upper_hex_digit, is_hex_digit, is_unreserved in *;
  unfold is_digit, is_upper_hex, is_lower_hex in *; unfold in_range in *.

Lemma upper_hex_digit_spec (d : N) :
  d < 16 ->
  is_hex_digit (upper_hex_digit d) = true /\ hex_value (upper_hex_digit d) = d
  /\ component_octet (upper_hex_digit d) /\ upper_hex_digit d <> PLUS.
Proof.
  intros Hd. unfold upper_hex_digit, component_octet.
  destruct (N.ltb_spec d 10); unfold_chars.
  - replace ((48 <=? 48 + d) && (48 + d <=? 57)) with true by (symmetry; decide_test).
    cbn [orb]. repeat split; lia.
  - replace ((48 <=? 55 + d) && (55 + d <=? 57)) with false by (symmetry; decide_test).
    replace ((65 <=? 55 + d) && (55 + d <=? 70)) with true by (symmetry; decide_test).
    cbn [orb]. repeat split; lia.
Qed.

Lemma unreserved_spec (b : N) :
  is_unreserved b = true ->
  component_octet b /\ b <> PLUS /\ b <> PERCENT.
Proof.
  unfold component_octet. unfold_chars. intros H. prop_tests_in H. lia.
Qed.

Lemma percent_encode_octet_safe (b : N) :
  Forall component_octet (percent_encode_octet b).
Proof.
  unfold percent_encode_octet.
  destruct (b =? SPACE).
  { constructor; [|constructor]. unfold component_octet. unfold_chars. lia. }
  destruct (is_unreserved b) eqn:Hu.
  { apply unreserved_spec in Hu. constructor; [tauto | constructor]. }
  pose proof (N.mod_lt (b / 16) 16). pose proof (N.mod_lt b 16).
  repeat apply Forall_cons; try apply Forall_nil;
    try (apply upper_hex_digit_spec; lia).
  unfold component_octet. unfold_chars. lia.
Qed.

Lemma encode_component_safe (s : jsstring) :
  Forall component_octet (encode_component s).
Proof.
  unfold encode_component. induction (utf8_encode s) as [|b bs IH]; [constructor|].
  cbn [flat_map]. apply Forall_app. split; [apply percent_encode_octet_safe | exact IH].
Qed.

Lemma decode_encode_octet (b : N) (rest : bytes) :
  b < 0x100 ->
  percent_decode (plus_to_space (percent_encode_octet b ++ rest))
  = b :: percent_decode (plus_to_space rest).
Proof.
  intros Hb. unfold percent_encode_octet, plus_to_space.
  destruct (N.eqb_spec b SPACE) as [->|Hsp]; [reflexivity|].
  destruct (is_unreserved b) eqn:Hu.
  - cbn [app List.map percent_decode].
    apply unreserved_spec in Hu as (_ & H1 & H2).
    apply N.eqb_neq in H1, H2. now rewrite H1, H2.
  - pose proof (N.mod_lt (b / 16) 16). pose proof (N.mod_lt b 16).
    pose proof (N.Div0.div_mod b 16). pose proof (N.Div0.div_mod (b / 16) 16).
    assert (Hq : b / 16 / 16 = 0) by (rewrite N.Div0.div_div; apply N.div_small; lia).
    destruct (upper_hex_digit_spec ((b / 16) mod 16)) as (Hh1 & Hh2 & _ & Hh3); [lia|].
    destruct (upper_hex_digit_spec (b mod 16)) as (Hl1 & Hl2 & _ & Hl3); [lia|].
    cbn [app List.map]. apply N.eqb_neq in Hh3, Hl3. rewrite Hh3, Hl3.
    change (PERCENT =? PLUS) with false. cbv iota.
    cbn [percent_decode]. change (PERCENT =? PERCENT) with true. cbv iota.
    rewrite Hh1, Hl1. cbn [andb]. rewrite Hh2, Hl2. f_equal. lia.
Qed.

Lemma decode_encode_octets (bs : bytes) :
  Forall (fun b => b < 0x100) bs ->
  percent_decode (plus_to_space (flat_map percent_encode_octet bs)) = bs.
Proof.
  induction 1 as [|b bs Hb _ IH]; [reflexivity|].
  cbn [flat_map]. rewrite decode_encode_octet by assumption. now rewrite IH.
Qed.

Lemma decode_encode_component (s : jsstring) :
  well_formed s = true -> decode_component (encode_component s) = s.
Proof.
  intros Hwf. unfold decode_component, encode_component.
  rewrite decode_encode_octets by apply utf8_encode_octets.
  now apply utf8_decode_encode.
Qed.

Lemma split_on_none (sep : N) (a : bytes) :
  Forall (fun b => b <> sep) a -> split_on sep a = [a].
Proof.
  induction 1 as [|b a Hb _ IH]; [reflexivity|].
  cbn [split_on]. apply N.eqb_neq in Hb. now rewrite Hb, IH.
Qed.

Lemma split_on_app (sep : N) (a rest : bytes) :
  Forall (fun b => b <> sep) a ->
  split_on sep (a ++ sep :: rest) = a :: split_on sep rest.
Proof.
  induction 1 as [|b a Hb _ IH]; cbn [app split_on].
  - now rewrite N.eqb_refl.
  - apply N.eqb_neq in Hb. now rewrite Hb, IH.
Qed.

Lemma name_value_app (n v : bytes) :
  Forall (fun b => b <> EQUALS) n -> name_value (n ++ EQUALS :: v) = (n, v).
Proof.
  induction 1 as [|b n Hb _ IH]; cbn [app name_value].
  - now rewrite N.eqb_refl.
  - apply N.eqb_neq in Hb. now rewrite Hb, IH.
Qed.

Lemma parse_serialize_pair (p : jsstring * jsstring) :
  well_formed_pair p -> parse_sequence (serialize_pair p) = p.
Proof.
  intros [Hn Hv]. unfold parse_sequence, serialize_pair.
  rewrite name_value_app.
  - rewrite !decode_encode_component by assumption. now destruct p.
  - eapply Forall_impl; [|apply encode_component_safe]. unfold component_octet. tauto.
Qed.

Lemma serialize_pair_safe (p : jsstring * jsstring) :
  Forall (fun b => b < 0x80 /\ b <> AMPERSAND /\ b <> QUESTION) (serialize_pair p).
Proof.
  unfold serialize_pair. apply Forall_app. split; [|constructor].
  - eapply Forall_impl; [|apply encode_component_safe]. unfold component_octet. tauto.
  - unfold_chars. lia.
  - eapply Forall_impl; [|apply encode_component_safe]. unfold component_octet. tauto.
Qed.

Lemma serialize_pair_nonempty (p : jsstring * jsstring) :
  nonempty (serialize_pair p) = true.
Proof. unfold serialize_pair. now destruct (encode_component (fst p)). Qed.

Lemma serialize_cons (p q : jsstring * jsstring) (l : list (jsstring * jsstring)) :
  urlencoded_serialize (p :: q :: l)
  = serialize_pair p ++ AMPERSAND :: urlencoded_serialize (q :: l).
Proof. reflexivity. Qed.

Lemma parse_serialize (l : list (jsstring * jsstring)) :
  Forall well_formed_pair l -> urlencoded_parse (urlencoded_serialize l) = l.
Proof.
  assert (Hsafe : forall p, Forall (fun b => b <> AMPERSAND) (serialize_pair p)).
  { intros p. eapply Forall_impl; [|apply serialize_pair_safe]. cbv beta. tauto. }
  unfold urlencoded_parse.
  induction l as [|p l IH]; intros Hwf; [reflexivity|].
  inversion Hwf as [|? ? Hp Hl]; subst.
  destruct l as [|q l].
  - cbn [urlencoded_serialize]. rewrite split_on_none by apply Hsafe.
    cbn [filter]. rewrite serialize_pair_nonempty. cbn [List.map].
    now rewrite parse_serialize_pair.
  - rewrite serialize_cons, split_on_app by apply Hsafe.
    cbn [filter]. rewrite serialize_pair_nonempty. cbn [List.map].
    rewrite parse_serialize_pair by assumption. f_equal. now apply IH.
Qed.

Lemma serialize_safe (l : list (jsstring * jsstring)) :
  Forall (fun b => b < 0x80 /\ b <> QUESTION) (urlencoded_serialize l).
Proof.
  assert (Hp : forall p, Forall (fun b => b < 0x80 /\ b <> QUESTION) (serialize_pair p)).
  { intros p. eapply Forall_impl; [|apply serialize_pair_safe]. cbv beta. tauto. }
  induction l as [|p l IH]; [constructor|].
  destruct l as [|q l]; [apply Hp|].
  rewrite serialize_cons. apply Forall_app. split; [apply Hp|].
  constructor; [unfold_chars; lia | exact IH].
Qed.

(** Reading back what [toString] printed returns the pairs. *)
Lemma new_toString (l : URLSearchParams.t) :
  Forall well_formed_pair l ->
  URLSearchParams.new (URLSearchParams.toString l) = l.
Proof.
  intros Hwf. unfold URLSearchParams.new, URLSearchParams.toString.
  pose proof (serialize_safe l) as Hs.
  assert (Ha : ascii_only (urlencoded_serialize l)).
  { eapply Forall_impl; [|exact Hs]. cbv beta. tauto. }
  rewrite ascii_to_usv by assumption. cbv zeta.
  match goal with
  | |- urlencoded_parse (utf8_encode ?m) = _ =>
      assert (E : m = urlencoded_serialize l)
  end.
  { destruct (urlencoded_serialize l) as [|c rest]; [reflexivity|].
    inversion Hs as [|? ? [_ Hq] _]; subst. apply N.eqb_neq in Hq. now rewrite Hq. }
  rewrite E, ascii_utf8 by assumption. now apply parse_serialize.
Qed.

(* ================================================================== *)
(** ** [URLSearchParams.sort] is the stable sort by name *)
(* ================================================================== *)

Lemma insert_back_perm (cur : entry) (acc : list entry) :
  Permutation (URLSearchParams.insert_back cur acc) (cur :: acc).
Proof.
  induction acc as [|p rest IH]; cbn [URLSearchParams.insert_back]; [reflexivity|].
  destruct (js_gt (fst p) (fst cur)); [|reflexivity].
  rewrite IH. apply perm_swap.
Qed.

Lemma insert_back_sorted (cur : entry) (acc : list entry) :
  StronglySorted name_ge acc ->
  StronglySorted name_ge (URLSearchParams.insert_back cur acc).
Proof.
  induction 1 as [|p rest Hs IH Hp]; cbn [URLSearchParams.insert_back].
  - repeat constructor.
  - destruct (js_gt (fst p) (fst cur)) eqn:E.
    + constructor; [exact IH|].
      eapply Permutation_Forall; [symmetry; apply insert_back_perm|].
      constructor; [|exact Hp]. now apply js_le_total.
    + constructor; [now constructor|].
      constructor; [exact E|].
      eapply Forall_impl; [|exact Hp]. intros q Hq.
      unfold name_ge, name_le in *. eapply js_le_trans; [exact Hq | exact E].
Qed.

Lemma filter_named_swap (k : jsstring) (p q : entry) :
  fst p <> fst q ->
  filter (named k) [p] ++ filter (named k) [q]
  = filter (named k) [q] ++ filter (named k) [p].
Proof.
  intros Hne. cbn [filter]. unfold named.
  destruct (js_eqb (fst p) k) eqn:Ep; destruct (js_eqb (fst q) k) eqn:Eq;
    try reflexivity.
  apply js_eqb_eq in Ep, Eq. congruence.
Qed.

Lemma js_gt_neq (a b : jsstring) : js_gt a b = true -> a <> b.
Proof.
  intros H E. subst. unfold js_gt in H. now rewrite js_compare_refl in H.
Qed.

Lemma insert_back_stable (k : jsstring) (cur : entry) (acc : list entry) :
  filter (named k) (rev (URLSearchParams.insert_back cur acc))
  = filter (named k) (rev acc ++ [cur]).
Proof.
  induction acc as [|p rest IH]; cbn [URLSearchParams.insert_back]; [reflexivity|].
  destruct (js_gt (fst p) (fst cur)) eqn:E; [|reflexivity].
  cbn [rev]. rewrite !filter_app, IH, filter_app, <- !app_assoc.
  f_equal. symmetry. apply filter_named_swap. now apply js_gt_neq.
Qed.

Lemma insertion_pass_spec (l : list entry) :
  forall acc, StronglySorted name_ge acc ->
    StronglySorted name_ge (insertion_pass l acc)
    /\ Permutation (insertion_pass l acc) (rev l ++ acc)
    /\ forall k, filter (named k) (rev (insertion_pass l acc))
                 = filter (named k) (rev acc ++ l).
Proof.
  unfold insertion_pass.
  induction l as [|x l IH]; intros acc Hacc; cbn [fold_left rev].
  - repeat split; [assumption | reflexivity | now rewrite app_nil_r].
  - destruct (IH (URLSearchParams.insert_back x acc)) as (Hs & Hp & Hf).
    { now apply insert_back_sorted. }
    repeat split; [exact Hs | |].
    + rewrite Hp, insert_back_perm, <- app_assoc. cbn [app].
      apply Permutation_app_head, Permutation_refl.
    + intros k. rewrite Hf, !filter_app, insert_back_stable, filter_app, <- !app_assoc.
      change (x :: l) with ([x] ++ l). now rewrite filter_app.
Qed.

Lemma sorted_snoc (R : entry -> entry -> Prop) (l : list entry) (x : entry) :
  StronglySorted R l -> Forall (fun y => R y x) l -> StronglySorted R (l ++ [x]).
Proof.
  induction 1 as [|p rest Hs IH Hp]; intros Hx; cbn [app].
  - repeat constructor.
  - inversion Hx; subst. constructor; [now apply IH|].
    apply Forall_app. split; [assumption | now repeat constructor].
Qed.

Lemma sorted_rev (l : list entry) :
  StronglySorted name_ge l -> sorted_by_name (rev l).
Proof.
  induction 1 as [|p rest Hs IH Hp]; cbn [rev]; [constructor|].
  apply sorted_snoc; [exact IH|]. apply Forall_rev. exact Hp.
Qed.

Lemma sort_sorted (l : list entry) : sorted_by_name (URLSearchParams.sort l).
Proof.
  apply sorted_rev. apply (insertion_pass_spec l []). constructor.
Qed.

Lemma sort_perm (l : list entry) : Permutation (URLSearchParams.sort l) l.
Proof.
  destruct (insertion_pass_spec l [] (SSorted_nil _)) as (_ & Hp & _).
  unfold URLSearchParams.sort. fold (insertion_pass l []).
  rewrite <- Permutation_rev, Hp, app_nil_r. symmetry. apply Permutation_rev.
Qed.

Lemma sort_stable (k : jsstring) (l : list entry) :
  filter (named k) (URLSearchParams.sort l) = filter (named k) l.
Proof.
  destruct (insertion_pass_spec l [] (SSorted_nil _)) as (_ & _ & Hf).
  exact (Hf k).
Qed.

(** A list sorted by name is determined by the pairs each name carries. *)
Lemma sorted_unique (l1 : list entry) :
  forall l2, sorted_by_name l1 -> sorted_by_name l2 ->
    (forall k, filter (named k) l1 = filter (named k) l2) -> l1 = l2.
Proof.
  induction l1 as [|[k1 v1] t1 IH]; intros l2 H1 H2 Hf.
  - destruct l2 as [|[k2 v2] t2]; [reflexivity|].
    specialize (Hf k2). cbn [filter] in Hf. unfold named in Hf. cbn [fst] in Hf.
    now rewrite js_eqb_refl in Hf.
  - destruct l2 as [|[k2 v2] t2].
    + specialize (Hf k1). cbn [filter] in Hf. unfold named in Hf. cbn [fst] in Hf.
      now rewrite js_eqb_refl in Hf.
    + inversion H1 as [|? ? Hs1 Hall1]; inversion H2 as [|? ? Hs2 Hall2]; subst.
      assert (In1 : forall p l, In p (filter (named (fst p)) (p :: l))).
      { intros p l. apply filter_In. split; [now left|]. apply js_eqb_refl. }
      assert (Hk : k1 = k2).
      { apply js_le_antisym.
        - pose proof (In1 (k2, v2) t2) as Hin. rewrite <- Hf in Hin.
          apply filter_In in Hin as [[Hin|Hin] _].
          + inversion Hin. apply js_le_refl.
          + rewrite Forall_forall in Hall1. exact (Hall1 _ Hin).
        - pose proof (In1 (k1, v1) t1) as Hin. rewrite Hf in Hin.
          apply filter_In in Hin as [[Hin|Hin] _].
          + inversion Hin. apply js_le_refl.
          + rewrite Forall_forall in Hall2. exact (Hall2 _ Hin). }
      subst k2.
      pose proof (Hf k1) as Hh. cbn [filter] in Hh. unfold named in Hh.
      cbn [fst] in Hh. rewrite js_eqb_refl in Hh. injection Hh as Hv Ht.
      subst v2. f_equal. apply IH; try assumption.
      intros k. specialize (Hf k). cbn [filter] in Hf.
      destruct (named k (k1, v1)); [now injection Hf | exact Hf].
Qed.

Lemma sort_unique (l s : list entry) :
  sorted_by_name s -> (forall k, filter (named k) s = filter (named k) l) ->
  URLSearchParams.sort l = s.
Proof.
  intros Hs Hf. apply sorted_unique; [apply sort_sorted | exact Hs |].
  intros k. now rewrite sort_stable, Hf.
Qed.

Lemma sort_sorted_id (l : list entry) :
  sorted_by_name l -> URLSearchParams.sort l = l.
Proof. intros H. now apply sort_unique. Qed.

Lemma sort_same_order (l1 l2 : list entry) :
  (forall k, filter (named k) l1 = filter (named k) l2) ->
  URLSearchParams.sort l1 = URLSearchParams.sort l2.
Proof.
  intros Hf. apply sort_unique; [apply sort_sorted|].
  intros k. now rewrite sort_stable, Hf.
Qed.

(* ================================================================== *)
(** ** The check string *)
(* ================================================================== *)

Lemma check_string_loop (l : list entry) (acc : jsstring) :
  fold_left (fun acc kv => acc ++ fst kv ++ EQUALS :: snd kv ++ [LINE_FEED]) l acc
  = acc ++ List.concat (List.map (fun p => render p ++ [LINE_FEED]) l).
Proof.
  revert acc. induction l as [|p l IH]; intros acc; cbn [fold_left List.map List.concat].
  - now rewrite app_nil_r.
  - rewrite IH. unfold render. repeat (rewrite <- ?app_assoc; cbn [app]). reflexivity.
Qed.

Lemma removelast_lines (l : list entry) :
  removelast (List.concat (List.map (fun p => render p ++ [LINE_FEED]) l))
  = join_lines (List.map render l).
Proof.
  induction l as [|p l IH]; [reflexivity|].
  destruct l as [|q l].
  - cbn [List.map List.concat join_lines]. rewrite app_nil_r. apply removelast_last.
  - change (List.map render (p :: q :: l))
      with (render p :: List.map render (q :: l)).
    change (join_lines (render p :: List.map render (q :: l)))
      with (render p ++ LINE_FEED :: join_lines (List.map render (q :: l))).
    rewrite <- IH. cbn [List.map List.concat].
    rewrite <- app_assoc. cbn [app].
    rewrite removelast_app; [|discriminate].
    f_equal. change (LINE_FEED :: ?x) with ([LINE_FEED] ++ x).
    cbn [app]. destruct (render q); reflexivity.
Qed.

(** The loop followed by [slice(0, -1)] joins the rendered pairs. *)
Lemma dataCheckString_join (l : URLSearchParams.t) :
  dataCheckString l = join_lines (List.map render l).
Proof.
  unfold dataCheckString, slice_0_m1, URLSearchParams.entries.
  rewrite check_string_loop. cbn [app]. apply removelast_lines.
Qed.

(* ================================================================== *)
(** ** The handler, case by case *)
(* ================================================================== *)

Lemma strict_neq_false (h : option jsstring) (c : jsstring) :
  strict_neq h c = false <-> h = Some c.
Proof.
  destruct h as [h|]; cbn [strict_neq]; [|split; discriminate].
  rewrite negb_false_iff, js_eqb_eq. split; congruence.
Qed.

Lemma strict_neq_true (h : option jsstring) (c : jsstring) :
  strict_neq h c = true <-> h <> Some c.
Proof.
  rewrite <- strict_neq_false. destruct (strict_neq h c); split; congruence.
Qed.

(** The handler as a decision tree over the configuration and the
    signature check. *)
Lemma verifyInitData_cases (e : env) (initData : jsstring) :
  verifyInitData e initData =
  match BOT_TOKEN e with
  | None => Json500
  | Some token =>
      if strict_neq (URLSearchParams.get (lit "hash") (URLSearchParams.new initData))
                    (sign (canonicalize (URLSearchParams.new initData)) (derive_key token))
      then Json401
      else
        match CLIENT_SECRET e with
        | None => Json500
        | Some secret =>
            Json200
              (URLSearchParams.toString
                 (URLSearchParams.append (lit "hash")
                    (sign (dataCheckString (reissued_params e initData)) (derive_key secret))
                    (reissued_params e initData)))
        end
  end.
Proof.
  unfold verifyInitData, verifyInitData_try, sign, derive_key, canonicalize,
    reissued_params.
  destruct e as [[token|] cid [secret|]]; cbn [BOT_TOKEN CLIENT_ID CLIENT_SECRET].
  all: cbn [Hmac.update bind]; try reflexivity.
  all: unfold Hmac.digest_hex, Hmac.digest, Hmac.create_with_string,
         Hmac.create_with_buffer;
       cbn [Hmac.key Hmac.data app].
  all: match goal with
       | |- context [strict_neq ?h ?c] => destruct (strict_neq h c)
       end; reflexivity.
Qed.

Lemma hex_ascii (bs : bytes) : ascii_only (hex bs).
Proof.
  unfold hex, ascii_only. induction bs as [|b bs IH]; [constructor|].
  cbn [flat_map app].
  pose proof (N.mod_lt (b / 16) 16). pose proof (N.mod_lt b 16).
  repeat constructor; try exact IH; unfold hex_digit;
    match goal with |- context [N.ltb ?a ?b] => destruct (N.ltb_spec a b) end; lia.
Qed.

Lemma hex_digit_lowercase (d : N) :
  d < 16 -> is_digit (hex_digit d) || is_lower_hex (hex_digit d) = true.
Proof.
  intros Hd. unfold hex_digit, is_digit, is_lower_hex, in_range.
  destruct (N.ltb_spec d 10); decide_test.
Qed.

Lemma hex_lowercase (bs : bytes) :
  Forall (fun u => is_digit u || is_lower_hex u = true) (hex bs).
Proof.
  unfold hex. induction bs as [|b bs IH]; [constructor|].
  cbn [flat_map app].
  repeat constructor; try exact IH; apply hex_digit_lowercase, N.mod_lt; discriminate.
Qed.

Lemma hash_literal_usv : to_usv (lit "hash") = lit "hash".
Proof. reflexivity. Qed.

Lemma client_id_literal_usv : to_usv (lit "client_id") = lit "client_id".
Proof. reflexivity. Qed.

Lemma append_hash (h : bytes) (l : URLSearchParams.t) :
  URLSearchParams.append (lit "hash") (hex h) l = l ++ [(lit "hash", hex h)].
Proof.
  unfold URLSearchParams.append.
  now rewrite hash_literal_usv, (ascii_to_usv (hex h)) by apply hex_ascii.
Qed.

(** Every pair the parser returns is well-formed, and the methods the
    handler calls keep it so. *)
Lemma new_well_formed (init : jsstring) :
  Forall well_formed_pair (URLSearchParams.new init).
Proof.
  unfold URLSearchParams.new, urlencoded_parse. cbv zeta.
  apply Forall_map. apply Forall_forall. intros sq _.
  unfold parse_sequence. destruct (name_value sq) as [n v].
  split; apply utf8_decode_well_formed.
Qed.

Lemma delete_well_formed (k : jsstring) (l : URLSearchParams.t) :
  Forall well_formed_pair l -> Forall well_formed_pair (URLSearchParams.delete k l).
Proof.
  intros H. apply Forall_forall. intros p Hp.
  apply filter_In in Hp as [Hp _]. rewrite Forall_forall in H. auto.
Qed.

Lemma sort_well_formed (l : URLSearchParams.t) :
  Forall well_formed_pair l -> Forall well_formed_pair (URLSearchParams.sort l).
Proof.
  intros H. eapply Permutation_Forall; [symmetry; apply sort_perm | exact H].
Qed.

Lemma append_well_formed (k v : jsstring) (l : URLSearchParams.t) :
  Forall well_formed_pair l -> Forall well_formed_pair (URLSearchParams.append k v l).
Proof.
  intros H. apply Forall_app. split; [exact H|].
  constructor; [|constructor]. split; apply to_usv_well_formed.
Qed.

Lemma reissued_well_formed (e : env) (init : jsstring) :
  Forall well_formed_pair (reissued_params e init).
Proof.
  unfold reissued_params.
  apply sort_well_formed, append_well_formed, sort_well_formed,
    delete_well_formed, new_well_formed.
Qed.

(** The pairs the handler signs: no [hash] among them, sorted by name, and a
    permutation of the input's pairs without [hash] plus the [client_id]
    pair. *)
Lemma reissued_perm (e : env) (init : jsstring) :
  Permutation (reissued_params e init)
    (URLSearchParams.delete (lit "hash") (URLSearchParams.new init)
     ++ [(lit "client_id", to_usv (ToString (CLIENT_ID e)))]).
Proof.
  unfold reissued_params, URLSearchParams.append.
  rewrite sort_perm, client_id_literal_usv.
  apply Permutation_app_tail, sort_perm.
Qed.

Lemma delete_named (k : jsstring) (l : URLSearchParams.t) :
  Forall (fun p => named k p = false) (URLSearchParams.delete k l).
Proof.
  apply Forall_forall. intros p Hp. apply filter_In in Hp as [_ Hp].
  unfold named. now apply negb_true_iff.
Qed.

Lemma reissued_no_hash (e : env) (init : jsstring) :
  Forall (fun p => named (lit "hash") p = false) (reissued_params e init).
Proof.
  eapply Permutation_Forall; [symmetry; apply reissued_perm|].
  apply Forall_app. split; [apply delete_named|].
  constructor; [reflexivity | constructor].
Qed.

Lemma reissued_sorted (e : env) (init : jsstring) :
  sorted_by_name (reissued_params e init).
Proof. apply sort_sorted. Qed.

Lemma delete_none (k : jsstring) (l : URLSearchParams.t) :
  Forall (fun p => named k p = false) l -> URLSearchParams.delete k l = l.
Proof.
  induction 1 as [|p l Hp _ IH]; [reflexivity|].
  unfold URLSearchParams.delete in *. cbn [filter].
  unfold named in Hp. now rewrite Hp, IH.
Qed.

Lemma delete_app (k : jsstring) (a b : URLSearchParams.t) :
  URLSearchParams.delete k (a ++ b)
  = URLSearchParams.delete k a ++ URLSearchParams.delete k b.
Proof. apply filter_app. Qed.

Lemma get_app_none (k : jsstring) (a b : URLSearchParams.t) :
  Forall (fun p => named k p = false) a ->
  URLSearchParams.get k (a ++ b) = URLSearchParams.get k b.
Proof.
  induction 1 as [|[n v] a Hp _ IH]; [reflexivity|].
  cbn [app URLSearchParams.get]. unfold named in Hp. cbn [fst] in Hp. now rewrite Hp.
Qed.

(** What a successful answer looks like. *)
Lemma verifyInitData_200 (e : env) (init out : jsstring) :
  verifyInitData e init = Json200 out ->
  exists token secret,
    BOT_TOKEN e = Some token /\ CLIENT_SECRET e = Some secret
    /\ URLSearchParams.get (lit "hash") (URLSearchParams.new init)
       = Some (sign (canonicalize (URLSearchParams.new init)) (derive_key token))
    /\ out = URLSearchParams.toString
               (reissued_params e init
                ++ [(lit "hash",
                     sign (dataCheckString (reissued_params e init)) (derive_key secret))]).
Proof.
  rewrite verifyInitData_cases.
  destruct (BOT_TOKEN e) as [token|]; [|discriminate].
  destruct (strict_neq _ _) eqn:E; [discriminate|].
  destruct (CLIENT_SECRET e) as [secret|]; [|discriminate].
  intros H. injection H as <-. exists token, secret.
  apply strict_neq_false in E. repeat split; try assumption.
  unfold sign. now rewrite append_hash.
Qed.

(** Parsing a successful answer gives the signed pairs followed by the new
    [hash] pair. *)
Lemma new_of_200 (e : env) (init out : jsstring) :
  verifyInitData e init = Json200 out ->
  exists secret,
    CLIENT_SECRET e = Some secret
    /\ URLSearchParams.new out
       = reissued_params e init
         ++ [(lit "hash",
              sign (dataCheckString (reissued_params e init)) (derive_key secret))].
Proof.
  intros H. apply verifyInitData_200 in H as (token & secret & _ & Hs & _ & ->).
  exists secret. split; [assumption|].
  apply new_toString. apply Forall_app. split; [apply reissued_well_formed|].
  constructor; [|constructor]. split; [reflexivity|].
  apply ascii_well_formed, hex_ascii.
Qed.

Lemma canonicalize_reissued (e : env) (init : jsstring) (h : jsstring) :
  canonicalize (reissued_params e init ++ [(lit "hash", h)])
  = dataCheckString (reissued_params e init).
Proof.
  unfold canonicalize. rewrite delete_app.
  rewrite delete_none by apply reissued_no_hash.
  change (URLSearchParams.delete (lit "hash") [(lit "hash", h)]) with (@nil entry).
  rewrite app_nil_r. now rewrite sort_sorted_id by apply reissued_sorted.
Qed.

(** With the bot token set, 401 is the answer exactly when the supplied hash
    is not the recomputed one. *)
Lemma verifyInitData_401 (e : env) (initData token : jsstring) :
  BOT_TOKEN e = Some token ->
  verifyInitData e initData = Json401
  <-> URLSearchParams.get (lit "hash") (URLSearchParams.new initData)
      <> Some (sign (canonicalize (URLSearchParams.new initData)) (derive_key token)).
Proof.
  intros Ht. rewrite verifyInitData_cases, Ht, <- strict_neq_true.
  destruct (strict_neq _ _); [tauto|].
  destruct (CLIENT_SECRET e); split; discriminate.
Qed.

(* ================================================================== *)
(** ** The specification's stable sort *)
(* ================================================================== *)

Lemma stable_insert_perm (p : entry) (l : list entry) :
  Permutation (stable_insert js_gt p l) (p :: l).
Proof.
  induction l as [|q l IH]; cbn [stable_insert]; [reflexivity|].
  destruct (js_gt (fst p) (fst q)); [|reflexivity].
  rewrite IH. apply perm_swap.
Qed.

Lemma stable_insert_sorted (p : entry) (l : list entry) :
  sorted_by_name l -> sorted_by_name (stable_insert js_gt p l).
Proof.
  induction 1 as [|q l Hs IH Hq]; cbn [stable_insert].
  - repeat constructor.
  - destruct (js_gt (fst p) (fst q)) eqn:E.
    + constructor; [exact IH|].
      eapply Permutation_Forall; [symmetry; apply stable_insert_perm|].
      constructor; [now apply js_le_total | exact Hq].
    + constructor; [now constructor|].
      constructor; [exact E|].
      eapply Forall_impl; [|exact Hq]. intros r Hr.
      unfold name_le in *. eapply js_le_trans; [exact E | exact Hr].
Qed.

Lemma stable_insert_stable (k : jsstring) (p : entry) (l : list entry) :
  filter (named k) (stable_insert js_gt p l) = filter (named k) (p :: l).
Proof.
  induction l as [|q l IH]; cbn [stable_insert]; [reflexivity|].
  destruct (js_gt (fst p) (fst q)) eqn:E; [|reflexivity].
  change (q :: stable_insert js_gt p l) with ([q] ++ stable_insert js_gt p l).
  change (p :: q :: l) with ([p] ++ [q] ++ l).
  rewrite !filter_app, IH. change (p :: l) with ([p] ++ l).
  rewrite filter_app, !app_assoc. f_equal.
  symmetry. apply filter_named_swap. now apply js_gt_neq.
Qed.

Lemma stable_sort_sorted (l : list entry) : sorted_by_name (stable_sort js_gt l).
Proof.
  induction l as [|p l IH]; cbn [stable_sort fold_right]; [constructor|].
  now apply stable_insert_sorted.
Qed.

Lemma stable_sort_stable (k : jsstring) (l : list entry) :
  filter (named k) (stable_sort js_gt l) = filter (named k) l.
Proof.
  induction l as [|p l IH]; [reflexivity|].
  cbn [stable_sort fold_right]. rewrite stable_insert_stable.
  fold (stable_sort js_gt l). cbn [filter]. now rewrite IH.
Qed.

(** The insertion sort of [URLSearchParams.sort] and the specification's
    stable sort agree once both order by code units. *)
Lemma sort_is_stable_sort (l : list entry) :
  URLSearchParams.sort l = stable_sort js_gt l.
Proof.
  apply sort_unique; [apply stable_sort_sorted|].
  intros k. apply stable_sort_stable.
Qed.

Lemma delete_is_filter (l : list entry) :
  URLSearchParams.delete (lit "hash") l
  = filter (fun p => negb (named (lit "hash") p)) l.
Proof. reflexivity. Qed.

Lemma filter_comm {A} (f g : A -> bool) (l : list A) :
  filter f (filter g l) = filter g (filter f l).
Proof.
  induction l as [|x l IH]; [reflexivity|]. cbn [filter].
  destruct (f x) eqn:Ef; destruct (g x) eqn:Eg; cbn [filter];
    rewrite ?Ef, ?Eg; now rewrite IH.
Qed.

Lemma filter_named_values (k : jsstring) (l : list entry) :
  filter (named k) l = List.map (fun v => (k, v)) (values_of k l).
Proof.
  unfold values_of. induction l as [|[n v] l IH]; [reflexivity|].
  cbn [filter]. destruct (named k (n, v)) eqn:E; [|exact IH].
  unfold named in E. cbn [fst] in E. apply js_eqb_eq in E. subst n.
  cbn [List.map snd]. now rewrite <- IH.
Qed.

Lemma verifies_under_spec (secret credential : jsstring) :
  verifies_under secret credential = true
  <-> URLSearchParams.get (lit "hash") (URLSearchParams.new credential)
      = Some (sign (canonicalize (URLSearchParams.new credential)) (derive_key secret)).
Proof.
  unfold verifies_under, pairs_verify, verify.
  destruct (URLSearchParams.get _ _) as [h|]; [|split; discriminate].
  rewrite js_eqb_eq. split; congruence.
Qed.

(* ================================================================== *)
(** ** Removing or altering one pair changes the check string *)
(* ================================================================== *)

Lemma weight_cons (p : entry) (l : list entry) :
  weight (p :: l) = (List.length (render p) + 1 + weight l)%nat.
Proof.
  unfold weight. cbn [List.map List.concat]. rewrite !length_app. cbn [List.length]. lia.
Qed.

Lemma weight_app (a b : list entry) : weight (a ++ b) = (weight a + weight b)%nat.
Proof.
  induction a as [|p a IH]; [reflexivity|].
  cbn [app]. rewrite !weight_cons, IH. lia.
Qed.

Lemma weight_perm (a b : list entry) : Permutation a b -> weight a = weight b.
Proof.
  induction 1 as [| x a b _ IH | x y a | a b c _ IH1 _ IH2];
    rewrite ?weight_cons; lia.
Qed.

Lemma dataCheckString_length (l : URLSearchParams.t) :
  List.length (dataCheckString l) = pred (weight l).
Proof.
  unfold dataCheckString, slice_0_m1, URLSearchParams.entries, weight.
  rewrite check_string_loop. cbn [app].
  generalize (List.concat (List.map (fun p => render p ++ [LINE_FEED]) l)).
  intros x. induction x as [|a [|b x] IH]; try reflexivity.
  change (removelast (a :: b :: x)) with (a :: removelast (b :: x)).
  cbn [List.length] in *. now rewrite IH.
Qed.

Lemma canonicalize_length (l : URLSearchParams.t) :
  List.length (canonicalize l) = pred (weight (URLSearchParams.delete (lit "hash") l)).
Proof.
  unfold canonicalize. rewrite dataCheckString_length.
  f_equal. apply weight_perm, sort_perm.
Qed.

Lemma removal_changes_check_string (before after : list entry) (p : entry) :
  named (lit "hash") p = false ->
  canonicalize (before ++ after) <> canonicalize (before ++ p :: after).
Proof.
  intros Hp E. apply (f_equal (@List.length N)) in E.
  rewrite !canonicalize_length, !delete_app in E.
  unfold URLSearchParams.delete at 4 in E. cbn [filter] in E.
  unfold named in Hp. rewrite Hp in E. cbn [negb] in E.
  fold (URLSearchParams.delete (lit "hash") after) in E.
  rewrite !weight_app, weight_cons in E.
  unfold render in E. rewrite length_app in E. cbn [List.length] in E. lia.
Qed.

Lemma stable_insert_changed (k c v : jsstring) (l : list entry) :
  one_changed k c v (stable_insert js_gt (k, c) l) (stable_insert js_gt (k, v) l).
Proof.
  induction l as [|q l IH]; cbn [stable_insert fst].
  - constructor.
  - destruct (js_gt k (fst q)); now constructor.
Qed.

Lemma stable_insert_one_changed (k c v : jsstring) (p : entry) (l l' : list entry) :
  one_changed k c v l l' ->
  one_changed k c v (stable_insert js_gt p l) (stable_insert js_gt p l').
Proof.
  induction 1 as [t | q t t' H IH]; cbn [stable_insert fst].
  - destruct (js_gt (fst p) k); repeat constructor.
  - destruct (js_gt (fst p) (fst q)); repeat constructor; assumption.
Qed.

Lemma stable_sort_one_changed (k c v : jsstring) (before after : list entry) :
  one_changed k c v (stable_sort js_gt (before ++ (k, c) :: after))
                    (stable_sort js_gt (before ++ (k, v) :: after)).
Proof.
  induction before as [|p before IH]; cbn [app stable_sort fold_right].
  - apply stable_insert_changed.
  - apply stable_insert_one_changed, IH.
Qed.

Lemma one_changed_nonempty (k c v : jsstring) (l l' : list entry) :
  one_changed k c v l l' -> l <> [] /\ l' <> [].
Proof. destruct 1; split; discriminate. Qed.

Lemma join_lines_cons (x : jsstring) (ls : list jsstring) :
  ls <> [] -> join_lines (x :: ls) = x ++ LINE_FEED :: join_lines ls.
Proof. destruct ls; [contradiction | reflexivity]. Qed.

Lemma one_changed_check_string (k c v : jsstring) (l l' : list entry) :
  c <> v -> one_changed k c v l l' ->
  join_lines (List.map render l) <> join_lines (List.map render l').
Proof.
  intros Hne. induction 1 as [t | p t t' H IH]; cbn [List.map]; intros E.
  - unfold render in E. cbn [fst snd] in E.
    destruct t as [|q t].
    + cbn [List.map join_lines] in E. apply app_inv_head in E. congruence.
    + rewrite !join_lines_cons in E by discriminate.
      rewrite <- !app_assoc in E. apply app_inv_head in E.
      cbn [app] in E. injection E as E.
      apply app_inv_tail in E. contradiction.
  - destruct (one_changed_nonempty _ _ _ _ _ H) as [Ht Ht'].
    rewrite !join_lines_cons in E.
    + apply app_inv_head in E. injection E as E. contradiction.
    + destruct t'; [contradiction | discriminate].
    + destruct t; [contradiction | discriminate].
Qed.

Lemma alteration_changes_check_string (k c v : jsstring) (before after : list entry) :
  js_eqb k (lit "hash") = false -> c <> v ->
  canonicalize (before ++ (k, c) :: after) <> canonicalize (before ++ (k, v) :: after).
Proof.
  intros Hk Hne. unfold canonicalize.
  rewrite !dataCheckString_join, !sort_is_stable_sort, !delete_app.
  unfold URLSearchParams.delete at 2 4. cbn [filter fst]. rewrite Hk. cbn [negb].
  fold (URLSearchParams.delete (lit "hash") after).
  apply (one_changed_check_string k c v); [exact Hne|].
  apply stable_sort_one_changed.
Qed.

(* ================================================================== *)
(** ** Verification of an altered credential *)
(* ================================================================== *)

Lemma hex_digit_inj (d d' : N) :
  d < 16 -> d' < 16 -> hex_digit d = hex_digit d' -> d = d'.
Proof.
  unfold hex_digit. intros Hd Hd'.
  destruct (N.ltb_spec d 10); destruct (N.ltb_spec d' 10); lia.
Qed.

Lemma hex_inj (a b : bytes) :
  Forall (fun x => x < 0x100) a -> Forall (fun x => x < 0x100) b ->
  hex a = hex b -> a = b.
Proof.
  intros Ha. revert b. induction Ha as [|x a Hx _ IH]; intros b Hb E.
  - destruct b; [reflexivity | discriminate].
  - destruct Hb as [|y b Hy Hb]; [discriminate|].
    unfold hex in E. cbn [flat_map app] in E. injection E as E1 E2 E3.
    pose proof (N.Div0.div_mod x 16). pose proof (N.Div0.div_mod y 16).
    pose proof (N.Div0.div_mod (x / 16) 16). pose proof (N.Div0.div_mod (y / 16) 16).
    assert (x / 16 / 16 = 0) by (rewrite N.Div0.div_div; apply N.div_small; lia).
    assert (y / 16 / 16 = 0) by (rewrite N.Div0.div_div; apply N.div_small; lia).
    apply hex_digit_inj in E1; [| apply N.mod_lt; discriminate ..].
    apply hex_digit_inj in E2; [| apply N.mod_lt; discriminate ..].
    f_equal; [lia | now apply IH].
Qed.

Lemma be_bytes_octets (n : nat) (x : N) :
  Forall (fun b => b < 0x100) (SHA256.be_bytes n x).
Proof.
  revert x. induction n as [|n IH]; intros x; cbn [SHA256.be_bytes]; [constructor|].
  apply Forall_app. split; [apply IH|].
  constructor; [apply N.mod_lt; discriminate | constructor].
Qed.

Lemma hmac_sha256_octets (key msg : bytes) :
  Forall (fun b => b < 0x100) (hmac_sha256 key msg).
Proof.
  unfold hmac_sha256, SHA256.digest. cbv zeta.
  apply Forall_flat_map. apply Forall_forall. intros w _. apply be_bytes_octets.
Qed.

Lemma well_formed_app (a b : jsstring) :
  well_formed a = true -> well_formed (a ++ b) = well_formed b.
Proof.
  induction a as [| x | x y l IHl IHyl] using list_ind2; intros Hwf.
  - reflexivity.
  - destruct (is_high x) eqn:Hx.
    + cbn [well_formed] in Hwf. now rewrite Hx in Hwf.
    + apply well_formed_tail in Hwf as (Hl & Hlt & _); [|assumption].
      cbn [app]. now apply well_formed_plain.
  - destruct (is_high x) eqn:Hx.
    + cbn [well_formed] in Hwf. rewrite Hx in Hwf.
      apply andb_true_iff in Hwf as [Hy Hwf].
      cbn [app well_formed]. rewrite Hx, Hy. cbn [andb]. now apply IHl.
    + apply well_formed_tail in Hwf as (Hl & Hlt & Hwf); [|assumption].
      change ((x :: y :: l) ++ b) with (x :: ((y :: l) ++ b)).
      rewrite well_formed_plain by assumption. now apply IHyl.
Qed.

Lemma render_well_formed (p : entry) :
  well_formed_pair p -> well_formed (render p) = true.
Proof.
  intros [Hn Hv]. unfold render. rewrite well_formed_app by assumption.
  rewrite well_formed_plain; [assumption | reflexivity ..].
Qed.

Lemma dataCheckString_well_formed (l : URLSearchParams.t) :
  Forall well_formed_pair l -> well_formed (dataCheckString l) = true.
Proof.
  rewrite dataCheckString_join.
  induction 1 as [|p l Hp Hl IH]; [reflexivity|].
  destruct l as [|q l]; [now apply render_well_formed|].
  cbn [List.map]. rewrite join_lines_cons by discriminate.
  rewrite well_formed_app by now apply render_well_formed.
  rewrite well_formed_plain; [exact IH | reflexivity ..].
Qed.

Lemma canonicalize_well_formed (l : URLSearchParams.t) :
  Forall well_formed_pair l -> well_formed (canonicalize l) = true.
Proof.
  intros H. apply dataCheckString_well_formed, sort_well_formed.
  now apply delete_well_formed.
Qed.

Lemma get_skip (k : jsstring) (p : entry) (a b : URLSearchParams.t) :
  named k p = false ->
  URLSearchParams.get k (a ++ p :: b) = URLSearchParams.get k (a ++ b).
Proof.
  intros Hp. induction a as [|[n v] a IH]; cbn [app URLSearchParams.get].
  - destruct p as [n v]. unfold named in Hp. cbn [fst] in Hp. now rewrite Hp.
  - now rewrite IH.
Qed.

(** Two credentials that carry the same [hash] and differ in their check
    strings cannot both verify unless HMAC-SHA256 collides. *)
Lemma verify_collision (secret : jsstring) (l l' : URLSearchParams.t) :
  Forall well_formed_pair l -> Forall well_formed_pair l' ->
  URLSearchParams.get (lit "hash") l = URLSearchParams.get (lit "hash") l' ->
  canonicalize l <> canonicalize l' ->
  pairs_verify secret l = true -> pairs_verify secret l' = true ->
  hmac_collision (derive_key secret)
    (utf8_encode (canonicalize l)) (utf8_encode (canonicalize l')).
Proof.
  intros Hl Hl' Hg Hne. unfold pairs_verify, verify. rewrite <- Hg.
  destruct (URLSearchParams.get _ l) as [h|]; [|discriminate].
  rewrite !js_eqb_eq. intros E1 E2. split.
  - intros E. apply Hne. apply utf8_encode_inj; auto using canonicalize_well_formed.
  - apply hex_inj; try apply hmac_sha256_octets. unfold sign in *. congruence.
Qed.

(* ================================================================== *)
(** ** The primitives against their published vectors *)
(* ================================================================== *)

(** FIPS 180-4, SHA-256 of "abc". *)
Example sha256_abc :
  hex (SHA256.digest (utf8_encode (lit "abc")))
  = lit "ba7816bf8f01cfea414140de5dae2223b00361a396177a9cb410ff61f20015ad".
Proof. vm_compute. reflexivity. Qed.

(** RFC 4231, test case 2. *)
Example hmac_sha256_rfc4231_2 :
  hex (hmac_sha256 (utf8_encode (lit "Jefe"))
         (utf8_encode (lit "what do ya want for nothing?")))
  = lit "5bdcc146bf60754e6a042426089575c75a003f089d2739839dec58b964ec3843".
Proof. vm_compute. reflexivity. Qed.

(** RFC 4231, test case 6: a key longer than the block. *)
Example hmac_sha256_rfc4231_6 :
  hex (hmac_sha256 (repeat 0xAA 131)
         (utf8_encode (lit "Test Using Larger Than Block-Size Key - Hash Key First")))
  = lit "60e431591ee0b67f0d8a26aacbf5b77f8e0bc6213728c5140546040f0ee37f54".
Proof. vm_compute. reflexivity. Qed.

(** The parser keeps a [%] that starts no escape; the sort orders by code
    units (the pair of U+FB03 and U+1F308 is the URL Standard's own test). *)
Example parse_keeps_bad_escape :
  URLSearchParams.new (lit "a=%ZZ&b=%41%")
  = [(lit "a", lit "%ZZ"); (lit "b", lit "A%")].
Proof. vm_compute. reflexivity. Qed.

Example sort_by_code_units :
  URLSearchParams.sort (URLSearchParams.new (lit "%EF%AC%83&%F0%9F%8C%88"))
  = [(key_rainbow, []); (key_ffi, [])].
Proof. vm_compute. reflexivity. Qed.

(** The scenario of section 8, end to end. *)
Example scenario_reissue :
  verifyInitData example_env example_credential = Json200 example_reissued.
Proof. vm_compute. reflexivity. Qed.

Example scenario_tamper :
  verifyInitData example_env tampered_credential = Json401.
Proof. vm_compute. reflexivity. Qed.

(* ================================================================== *)
(** ** The claims *)
(* ================================================================== *)

(** C1.  A credential whose [hash] is not the HMAC recomputed under the bot
    token -- in particular one with no [hash] pair, for which [get] returns
    [null] -- is answered with 401 "Invalid InitData"; no re-signed string
    is produced. *)
Theorem reject_invalid_signature (e : env) (initData token : jsstring) :
  BOT_TOKEN e = Some token ->
  URLSearchParams.get (lit "hash") (URLSearchParams.new initData)
    <> Some (sign (canonicalize (URLSearchParams.new initData)) (derive_key token)) ->
  verifyInitData e initData = Json401.
Proof.
  intros Ht Hne. now apply (verifyInitData_401 e initData token Ht).
Qed.

Lemma reject_invalid_signature_witness :
  verifyInitData example_env tampered_credential = Json401
  /\ verifyInitData example_env (lit "auth_date=1700000000") = Json401.
Proof.
  split.
  - apply (reject_invalid_signature example_env tampered_credential (lit "S1"));
      [reflexivity | vm_compute; discriminate].
  - apply (reject_invalid_signature example_env (lit "auth_date=1700000000") (lit "S1"));
      [reflexivity | vm_compute; discriminate].
Defined.

(** C2.  A credential that verifies under the upstream secret is reissued,
    and the returned string verifies under the downstream secret: parsed,
    its [hash] taken out, the rest canonicalized, the hash equals the
    signature under the key derived from the client secret. *)
Theorem reissue_round_trip (e : env) (initData token secret : jsstring) :
  BOT_TOKEN e = Some token ->
  CLIENT_SECRET e = Some secret ->
  verifies_under token initData = true ->
  exists out,
    verifyInitData e initData = Json200 out /\ verifies_under secret out = true.
Proof.
  intros Ht Hs Hv. apply verifies_under_spec in Hv.
  assert (H200 : exists out, verifyInitData e initData = Json200 out).
  { rewrite verifyInitData_cases, Ht, Hs.
    apply strict_neq_false in Hv. rewrite Hv. eauto. }
  destruct H200 as [out Hout]. exists out. split; [exact Hout|].
  apply new_of_200 in Hout as (secret' & Hs' & Hnew).
  assert (secret' = secret) by congruence. subst secret'.
  apply verifies_under_spec. rewrite Hnew.
  rewrite get_app_none by apply reissued_no_hash.
  cbn [URLSearchParams.get]. change (js_eqb (lit "hash") (lit "hash")) with true.
  cbv iota. now rewrite canonicalize_reissued.
Qed.

Lemma reissue_round_trip_witness :
  verifies_under (lit "S1") example_credential = true
  /\ exists out,
       verifyInitData example_env example_credential = Json200 out
       /\ verifies_under (lit "S2") out = true.
Proof.
  split; [vm_compute; reflexivity|].
  apply (reissue_round_trip example_env example_credential (lit "S1") (lit "S2"));
    vm_compute; reflexivity.
Defined.

(** C3.  With both secrets configured, the handler's two signatures are the
    fixed two-step derivation: the key is the raw HMAC-SHA256 digest of the
    secret under the key "WebAppData", the signature is the lowercase
    hexadecimal HMAC-SHA256 digest of the check string under that key;
    upstream the request is refused exactly when the supplied hash differs
    from that signature, downstream the [hash] pair of the answer carries
    it. *)
Theorem two_step_derivation (token secret : jsstring) (cid : option jsstring)
    (initData : jsstring) :
  let e := Env (Some token) cid (Some secret) in
  let webapp := utf8_encode (lit "WebAppData") in
  let mac (s check_string : jsstring) :=
    hex (hmac_sha256 (hmac_sha256 webapp (utf8_encode s)) (utf8_encode check_string)) in
  (verifyInitData e initData = Json401
   <-> URLSearchParams.get (lit "hash") (URLSearchParams.new initData)
       <> Some (mac token (canonicalize (URLSearchParams.new initData))))
  /\ (forall out,
        verifyInitData e initData = Json200 out ->
        URLSearchParams.get (lit "hash") (URLSearchParams.new out)
        = Some (mac secret (canonicalize (URLSearchParams.new out))))
  /\ (forall s check_string,
        sign check_string (derive_key s) = mac s check_string
        /\ Forall (fun u => is_digit u || is_lower_hex u = true) (mac s check_string)).
Proof.
  cbv zeta. split; [|split; [|split]].
  - apply (verifyInitData_401 (Env (Some token) cid (Some secret)) initData token).
    reflexivity.
  - intros out Hout.
    apply new_of_200 in Hout as (secret' & Hs' & Hnew).
    cbn [CLIENT_SECRET] in Hs'. injection Hs' as <-.
    rewrite Hnew. rewrite get_app_none by apply reissued_no_hash.
    cbn [URLSearchParams.get]. change (js_eqb (lit "hash") (lit "hash")) with true.
    cbv iota. now rewrite canonicalize_reissued.
  - reflexivity.
  - apply hex_lowercase.
Qed.

(** C4, as stated, fails: keys are ordered by UTF-16 code units, not by
    their octets.  U+1F308 is the surrogate pair D83C DF08 and sorts before
    U+FB03, while its UTF-8 form F0 9F 8C 88 sorts after EF AC 83. *)
Lemma check_string_not_bytewise :
  canonicalize [(key_ffi, lit "1"); (key_rainbow, lit "2")]
  = key_rainbow ++ lit "=2" ++ [LINE_FEED] ++ key_ffi ++ lit "=1"
  /\ check_string_spec bytewise_gt [(key_ffi, lit "1"); (key_rainbow, lit "2")]
     = key_ffi ++ lit "=1" ++ [LINE_FEED] ++ key_rainbow ++ lit "=2".
Proof. repeat apply conj; vm_compute; reflexivity. Qed.

(** C4, amended.  The check string is the specification's canonical string
    for the code-unit order on keys: the pairs named [hash] removed, the
    rest sorted by key (sorted, and stable: under every key the pairs keep
    their order), each rendered [key=value], joined by single newlines with
    none at the end; with no pair left it is empty.  On ASCII keys the
    code-unit order is the byte-wise order. *)
Theorem check_string_canonical (pairs : list entry) :
  let kept := filter (fun p => negb (named (lit "hash") p)) pairs in
  canonicalize pairs = check_string_spec js_gt pairs
  /\ sorted_by_name (stable_sort js_gt kept)
  /\ (forall k, filter (named k) (stable_sort js_gt kept) = filter (named k) kept)
  /\ (kept = [] -> canonicalize pairs = [])
  /\ (forall a b, ascii_only a -> ascii_only b -> bytewise_gt a b = js_gt a b).
Proof.
  cbv zeta. unfold canonicalize, check_string_spec.
  rewrite dataCheckString_join, sort_is_stable_sort, delete_is_filter.
  repeat apply conj.
  - reflexivity.
  - apply stable_sort_sorted.
  - intros k. apply stable_sort_stable.
  - intros ->. reflexivity.
  - intros a b Ha Hb. unfold bytewise_gt. now rewrite !ascii_utf8.
Qed.

(** C5, as stated, fails: two pairs under one key are kept in their input
    order, so presenting them the other way round changes the string. *)
Lemma duplicate_keys_order_matters :
  Permutation [(lit "a", lit "1"); (lit "a", lit "2")]
              [(lit "a", lit "2"); (lit "a", lit "1")]
  /\ canonicalize [(lit "a", lit "1"); (lit "a", lit "2")]
     = lit "a=1" ++ [LINE_FEED] ++ lit "a=2"
  /\ canonicalize [(lit "a", lit "2"); (lit "a", lit "1")]
     = lit "a=2" ++ [LINE_FEED] ++ lit "a=1".
Proof.
  split; [apply perm_swap|]. split; vm_compute; reflexivity.
Qed.

(** C5, amended.  Two presentations of the same pairs give the same check
    string whenever every key carries its values in the same order in both;
    that is so for every reordering of pairs with distinct keys. *)
Theorem canonical_order_independent (l1 l2 : list entry) :
  Permutation l1 l2 ->
  (forall k, values_of k l1 = values_of k l2) ->
  canonicalize l1 = canonicalize l2.
Proof.
  intros _ Hv. unfold canonicalize. f_equal. apply sort_same_order.
  intros k. unfold URLSearchParams.delete.
  rewrite !(filter_comm (named k)). f_equal.
  now rewrite !filter_named_values, Hv.
Qed.

Lemma canonical_order_independent_witness :
  canonicalize [(lit "b", lit "1"); (lit "a", lit "2"); (lit "hash", lit "00")]
  = canonicalize [(lit "hash", lit "00"); (lit "a", lit "2"); (lit "b", lit "1")].
Proof.
  apply canonical_order_independent.
  - apply Permutation_rev.
  - intros k. unfold values_of, named. cbn [filter fst].
    destruct (js_eqb (lit "b") k) eqn:Eb; destruct (js_eqb (lit "a") k) eqn:Ea;
      destruct (js_eqb (lit "hash") k) eqn:Eh; try reflexivity;
      apply js_eqb_eq in Ea || apply js_eqb_eq in Eb;
      subst k; discriminate.
Defined.

(** C6, as stated, fails: a [%] that starts no escape is kept literally, and
    the request is then decided by the signature alone -- refused with 401,
    or reissued when the hash matches. *)
Lemma bad_escape_is_not_malformed :
  bad_escape (lit "%ZZ") = true
  /\ verifyInitData example_env (lit "%ZZ") = Json401
  /\ bad_escape bad_escape_credential = true
  /\ URLSearchParams.new bad_escape_credential
     = [(lit "a", lit "%ZZ");
        (lit "hash", lit "78fea412e058ad3fbf8a0e3aa59ba8587335b9c1f57b7da11c47d390b58a1531")]
  /\ verifyInitData example_env bad_escape_credential = Json200 bad_escape_reissued.
Proof. repeat apply conj; vm_compute; reflexivity. Qed.

(** C6, amended.  With the secrets configured, every input string is
    decoded and answered by the signature check alone: 401 when it does not
    verify under the bot token, a reissued credential when it does; no
    string makes the handler throw. *)
Theorem string_input_never_throws (token secret : jsstring) (cid : option jsstring)
    (initData : jsstring) :
  let e := Env (Some token) cid (Some secret) in
  verifyInitData_try e initData = Normal (verifyInitData e initData)
  /\ ((verifies_under token initData = false /\ verifyInitData e initData = Json401)
      \/ (verifies_under token initData = true
          /\ exists out, verifyInitData e initData = Json200 out)).
Proof.
  cbv zeta. split.
  - unfold verifyInitData, verifyInitData_try.
    cbn [BOT_TOKEN CLIENT_ID CLIENT_SECRET Hmac.update bind].
    destruct (strict_neq _ _); reflexivity.
  - rewrite verifyInitData_cases. cbn [BOT_TOKEN CLIENT_SECRET].
    destruct (strict_neq _ _) eqn:E.
    + left. split; [|reflexivity].
      apply strict_neq_true in E. destruct (verifies_under token initData) eqn:V;
        [|reflexivity].
      apply verifies_under_spec in V. contradiction.
    + right. split; [|eauto].
      apply strict_neq_false in E. now apply verifies_under_spec.
Qed.

(** C7, as stated, fails: empty secrets are used as they are and an absent
    client identifier is bound as the text "undefined". *)
Lemma empty_configuration_is_accepted :
  verifyInitData empty_env empty_env_credential = Json200 empty_env_reissued.
Proof. vm_compute. reflexivity. Qed.

(** C7, amended.  Without the bot token every request is answered with the
    500 "Server error"; without the client secret no credential is ever
    reissued: a request that passes the upstream check is answered with 500,
    any other with 401. *)
Theorem missing_secret_is_server_error (initData : jsstring) :
  (forall cid secret, verifyInitData (Env None cid secret) initData = Json500)
  /\ (forall token cid,
        verifyInitData (Env (Some token) cid None) initData
        = if verifies_under token initData then Json500 else Json401).
Proof.
  split; intros; rewrite verifyInitData_cases; cbn [BOT_TOKEN CLIENT_SECRET];
    [reflexivity|].
  destruct (strict_neq _ _) eqn:E.
  - apply strict_neq_true in E. destruct (verifies_under token initData) eqn:V;
      [|reflexivity].
    apply verifies_under_spec in V. contradiction.
  - apply strict_neq_false, verifies_under_spec in E. now rewrite E.
Qed.

(** C8, as stated, fails: the check string does not delimit names from
    values, so a pair can be altered without changing it.  With the client
    identifier [a=b] the reissued pair [client_id] = [a=b] can be turned into
    [client_id=a] = [b]: no pair is named [client_id] any more, and the
    credential still verifies under the downstream secret. *)
Lemma client_id_can_be_renamed :
  verifyInitData equals_env equals_credential = Json200 equals_reissued
  /\ List.map fst (URLSearchParams.new equals_reissued) = [lit "client_id"; lit "hash"]
  /\ URLSearchParams.get (lit "client_id") (URLSearchParams.new equals_reissued)
     = Some (lit "a=b")
  /\ List.map fst (URLSearchParams.new equals_altered) = [lit "client_id=a"; lit "hash"]
  /\ URLSearchParams.get (lit "client_id") (URLSearchParams.new equals_altered) = None
  /\ URLSearchParams.get (lit "hash") (URLSearchParams.new equals_altered)
     = URLSearchParams.get (lit "hash") (URLSearchParams.new equals_reissued)
  /\ verifies_under (lit "S2") equals_altered = true.
Proof. repeat apply conj; vm_compute; reflexivity. Qed.

(** C8, amended.  A reissued credential contains the pair [client_id] with
    the configured identifier.  Removing that pair, or changing its value,
    changes the canonical check string, so the credential no longer verifies
    under the downstream secret unless HMAC-SHA256 collides on the two
    check strings. *)
Theorem client_id_binding (e : env) (initData out : jsstring) :
  verifyInitData e initData = Json200 out ->
  let bound := (lit "client_id", to_usv (ToString (CLIENT_ID e))) in
  In bound (URLSearchParams.new out)
  /\ (forall cid, CLIENT_ID e = Some cid -> well_formed cid = true -> snd bound = cid)
  /\ forall before after altered,
       URLSearchParams.new out = before ++ bound :: after ->
       altered = before ++ after
       \/ (exists v, v <> snd bound /\ well_formed v = true
                     /\ altered = before ++ (lit "client_id", v) :: after) ->
       canonicalize altered <> canonicalize (URLSearchParams.new out)
       /\ forall secret,
            CLIENT_SECRET e = Some secret ->
            pairs_verify secret altered = true ->
            hmac_collision (derive_key secret)
              (utf8_encode (canonicalize altered))
              (utf8_encode (canonicalize (URLSearchParams.new out))).
Proof.
  intros H bound.
  pose proof (new_well_formed out) as Hwf.
  destruct (new_of_200 _ _ _ H) as (secret0 & Hs0 & Hnew).
  split; [|split].
  - rewrite Hnew. apply in_or_app. left.
    eapply Permutation_in; [symmetry; apply reissued_perm|].
    apply in_or_app. right. now left.
  - intros cid Hc Hw. subst bound. cbn [snd]. rewrite Hc. cbn [ToString].
    now apply to_usv_id.
  - intros before after altered Hsplit Halt.
    assert (Hk : named (lit "hash") bound = false) by reflexivity.
    assert (Hne : canonicalize altered <> canonicalize (URLSearchParams.new out)).
    { rewrite Hsplit. destruct Halt as [-> | (v & Hv & _ & ->)].
      - now apply removal_changes_check_string.
      - apply alteration_changes_check_string; [reflexivity | exact Hv]. }
    split; [exact Hne|].
    intros secret Hs Hver.
    assert (secret0 = secret) by congruence. subst secret0.
    apply verify_collision; try assumption.
    + rewrite Hsplit in Hwf. apply Forall_app in Hwf as [Hb Ha].
      inversion Ha as [|? ? _ Ha']; subst.
      destruct Halt as [-> | (v & _ & Hv & ->)].
      * apply Forall_app. now split.
      * apply Forall_app. split; [assumption|].
        constructor; [|assumption]. split; [reflexivity | exact Hv].
    + rewrite Hsplit, (get_skip _ bound) by assumption.
      destruct Halt as [-> | (v & _ & _ & ->)]; [reflexivity|].
      now rewrite get_skip.
    + unfold pairs_verify, verify. rewrite Hnew.
      rewrite get_app_none by apply reissued_no_hash.
      cbn [URLSearchParams.get]. change (js_eqb (lit "hash") (lit "hash")) with true.
      cbv iota. rewrite canonicalize_reissued. apply js_eqb_refl.
Qed.

Lemma client_id_binding_witness :
  let bound := (lit "client_id", to_usv (ToString (CLIENT_ID example_env))) in
  In bound (URLSearchParams.new small_reissued)
  /\ (forall cid, CLIENT_ID example_env = Some cid -> well_formed cid = true ->
                  snd bound = cid)
  /\ forall before after altered,
       URLSearchParams.new small_reissued = before ++ bound :: after ->
       altered = before ++ after
       \/ (exists v, v <> snd bound /\ well_formed v = true
                     /\ altered = before ++ (lit "client_id", v) :: after) ->
       canonicalize altered <> canonicalize (URLSearchParams.new small_reissued)
       /\ forall secret,
            CLIENT_SECRET example_env = Some secret ->
            pairs_verify secret altered = true ->
            hmac_collision (derive_key secret)
              (utf8_encode (canonicalize altered))
              (utf8_encode (canonicalize (URLSearchParams.new small_reissued))).
Proof.
  apply (client_id_binding example_env small_credential small_reissued).
  vm_compute. reflexivity.
Defined.

(** C9, as stated, fails: line 13 deletes every pair named [hash], not
    only the one that was verified.  A credential with a second [hash]
    pair behind the signed one is accepted, and that second pair, which
    is not the original hash pair, is dropped: the answer has four pairs
    where the input's pairs minus the original hash pair, plus two, would
    be five. *)
Lemma second_hash_pair_is_dropped :
  verifyInitData example_env two_hash_credential = Json200 small_reissued
  /\ URLSearchParams.new two_hash_credential
     = [(lit "b", lit "1"); (lit "a", lit "2");
        (lit "hash",
         lit "eaedd5a1b0afe9f102891df106f8a8a5b06f960c9e40bfc8f31db690cfb6865a");
        (lit "hash", lit "00")]
  /\ minus_original_hash (URLSearchParams.new two_hash_credential)
     = [(lit "b", lit "1"); (lit "a", lit "2"); (lit "hash", lit "00")]
  /\ URLSearchParams.new small_reissued
     = [(lit "a", lit "2"); (lit "b", lit "1"); (lit "client_id", lit "CID");
        (lit "hash",
         lit "f3ec4274e7e42f298763e6b39d08026e14dba3b5e7e08de512ef5237ba3c482a")].
Proof. repeat apply conj; vm_compute; reflexivity. Qed.

(** C9, amended.  The pairs of a reissued credential are the input's pairs
    without every pair named [hash], plus one [client_id] pair and one
    [hash] pair; nothing else is added, dropped or changed. *)
Theorem reissue_frame (e : env) (initData out : jsstring) :
  verifyInitData e initData = Json200 out ->
  exists h,
    Permutation (URLSearchParams.new out)
      (URLSearchParams.delete (lit "hash") (URLSearchParams.new initData)
       ++ [(lit "client_id", to_usv (ToString (CLIENT_ID e))); (lit "hash", h)]).
Proof.
  intros H. apply new_of_200 in H as (secret & _ & ->).
  exists (sign (dataCheckString (reissued_params e initData)) (derive_key secret)).
  match goal with
  | |- Permutation _ (?d ++ [?c; ?h]) =>
      change (d ++ [c; h]) with (d ++ [c] ++ [h])
  end.
  rewrite app_assoc. apply Permutation_app_tail, reissued_perm.
Qed.

Lemma reissue_frame_witness :
  exists h,
    Permutation (URLSearchParams.new small_reissued)
      (URLSearchParams.delete (lit "hash") (URLSearchParams.new small_credential)
       ++ [(lit "client_id", to_usv (ToString (CLIENT_ID example_env)));
           (lit "hash", h)]).
Proof.
  apply (reissue_frame example_env small_credential small_reissued).
  vm_compute. reflexivity.
Defined.

(** C10, as stated, fails: the order on keys is by code units.  In the
    reissued string U+1F308 comes before U+FB03 although its octets are
    greater. *)
Lemma reissued_order_not_bytewise :
  verifyInitData example_env astral_credential = Json200 astral_reissued
  /\ List.map fst (URLSearchParams.new astral_reissued)
     = [lit "client_id"; key_rainbow; key_ffi; lit "hash"]
  /\ bytewise_gt key_rainbow key_ffi = true.
Proof. repeat apply conj; vm_compute; reflexivity. Qed.

(** C10, amended.  A reissued credential parses into the non-hash pairs in
    ascending code-unit order of their keys, pairs under one key in their
    input order (the new [client_id] pair last among them), followed by the
    new [hash] pair as the final pair. *)
Theorem reissued_order (e : env) (initData out : jsstring) :
  verifyInitData e initData = Json200 out ->
  exists body h,
    URLSearchParams.new out = body ++ [(lit "hash", h)]
    /\ Forall (fun p => named (lit "hash") p = false) body
    /\ sorted_by_name body
    /\ forall k,
         filter (named k) body
         = filter (named k)
             (URLSearchParams.delete (lit "hash") (URLSearchParams.new initData)
              ++ [(lit "client_id", to_usv (ToString (CLIENT_ID e)))]).
Proof.
  intros H. apply new_of_200 in H as (secret & _ & ->).
  eexists _, _. split; [reflexivity|].
  split; [apply reissued_no_hash|]. split; [apply reissued_sorted|].
  intros k. unfold reissued_params, URLSearchParams.append.
  rewrite sort_stable, !filter_app, sort_stable. reflexivity.
Qed.

Lemma reissued_order_witness :
  exists body h,
    URLSearchParams.new small_reissued = body ++ [(lit "hash", h)]
    /\ Forall (fun p => named (lit "hash") p = false) body
    /\ sorted_by_name body
    /\ forall k,
         filter (named k) body
         = filter (named k)
             (URLSearchParams.delete (lit "hash") (URLSearchParams.new small_credential)
              ++ [(lit "client_id", to_usv (ToString (CLIENT_ID example_env)))]).
Proof.
  apply (reissued_order example_env small_credential small_reissued).
  vm_compute. reflexivity.
Defined.

(* ================================================================== *)
(** ** Further properties of the handler *)
(* ================================================================== *)

(* ================================================================== *)
(** ** Lookups by name *)
(* ================================================================== *)

Lemma get_values (k : jsstring) (l : URLSearchParams.t) :
  URLSearchParams.get k l = hd_error (values_of k l).
Proof.
  unfold values_of, named. induction l as [|[n v] l IH]; [reflexivity|].
  cbn [URLSearchParams.get filter fst]. destruct (js_eqb n k); [reflexivity | exact IH].
Qed.

Lemma values_of_app (k : jsstring) (a b : list entry) :
  values_of k (a ++ b) = values_of k a ++ values_of k b.
Proof. unfold values_of. now rewrite filter_app, map_app. Qed.

Lemma filter_named_delete_other (k h : jsstring) (l : list entry) :
  js_eqb k h = false ->
  filter (named k) (URLSearchParams.delete h l) = filter (named k) l.
Proof.
  intros Hk. unfold URLSearchParams.delete.
  induction l as [|p l IH]; [reflexivity|]. cbn [filter].
  destruct (named k p) eqn:Ep.
  - unfold named in Ep. apply js_eqb_eq in Ep. rewrite Ep, Hk. cbn [negb filter].
    unfold named at 1. rewrite Ep, js_eqb_refl. now rewrite IH.
  - destruct (negb (js_eqb (fst p) h)); cbn [filter]; rewrite ?Ep; exact IH.
Qed.

Lemma filter_named_delete_same (h : jsstring) (l : list entry) :
  filter (named h) (URLSearchParams.delete h l) = [].
Proof.
  pose proof (delete_named h l) as H.
  induction H as [|p t Hp _ IH]; [reflexivity|]. cbn [filter]. now rewrite Hp.
Qed.

(** The sorted non-hash pairs depend only on the values each other name
    carries. *)
Lemma sort_delete_same (l1 l2 : URLSearchParams.t) :
  (forall k, js_eqb k (lit "hash") = false -> values_of k l1 = values_of k l2) ->
  URLSearchParams.sort (URLSearchParams.delete (lit "hash") l1)
  = URLSearchParams.sort (URLSearchParams.delete (lit "hash") l2).
Proof.
  intros Hv. apply sort_same_order. intros k.
  destruct (js_eqb k (lit "hash")) eqn:Ek.
  - apply js_eqb_eq in Ek. subst k. now rewrite !filter_named_delete_same.
  - rewrite !filter_named_delete_other by assumption.
    now rewrite !filter_named_values, Hv.
Qed.

(** X1.  The answer depends on the pairs the constructor reads from the
    input only through the first [hash] value and, for every other name,
    the values it carries in order: the order of differently named pairs
    and further [hash] pairs make no difference. *)
Theorem response_depends_on_values (e : env) (i1 i2 : jsstring) :
  URLSearchParams.get (lit "hash") (URLSearchParams.new i1)
  = URLSearchParams.get (lit "hash") (URLSearchParams.new i2) ->
  (forall k, js_eqb k (lit "hash") = false ->
             values_of k (URLSearchParams.new i1) = values_of k (URLSearchParams.new i2)) ->
  verifyInitData e i1 = verifyInitData e i2.
Proof.
  intros Hh Hv. rewrite !verifyInitData_cases.
  unfold canonicalize, reissued_params.
  now rewrite Hh, (sort_delete_same _ _ Hv).
Qed.

(** Settle a statement about the values under an arbitrary name [k] in
    explicit pair lists, by cases on which name [k] is. *)
Ltac by_name k :=
  unfold values_of, named; cbn [filter fst List.map snd];
  repeat match goal with
    | |- context [js_eqb ?a k] => destruct (js_eqb a k) eqn:?
    end;
  try reflexivity;
  match goal with
  | H : js_eqb _ k = true |- _ => apply js_eqb_eq in H; subst k
  end;
  repeat match goal with
    | H : js_eqb _ _ = _ |- _ => vm_compute in H; try discriminate H; clear H
    end;
  try reflexivity.

Ltac compute_pairs i :=
  let v := eval vm_compute in (URLSearchParams.new i) in
  replace (URLSearchParams.new i) with v by (vm_compute; reflexivity).

Lemma response_depends_on_values_witness :
  verifyInitData example_env reordered_credential
  = verifyInitData example_env example_credential.
Proof.
  apply response_depends_on_values.
  - vm_compute. reflexivity.
  - intros k Hk.
    compute_pairs reordered_credential. compute_pairs example_credential.
    by_name k.
Defined.

(* ================================================================== *)
(** ** Tampering *)
(* ================================================================== *)

(** A credential that carries the hash of a verified one but has another
    check string is refused, unless HMAC-SHA256 collides. *)
Lemma changed_check_string_rejected (e : env) (token i1 i2 : jsstring) :
  BOT_TOKEN e = Some token ->
  verifies_under token i1 = true ->
  URLSearchParams.get (lit "hash") (URLSearchParams.new i1)
  = URLSearchParams.get (lit "hash") (URLSearchParams.new i2) ->
  canonicalize (URLSearchParams.new i1) <> canonicalize (URLSearchParams.new i2) ->
  verifyInitData e i2 = Json401
  \/ hmac_collision (derive_key token)
       (utf8_encode (canonicalize (URLSearchParams.new i1)))
       (utf8_encode (canonicalize (URLSearchParams.new i2))).
Proof.
  intros Ht Hv Hg Hne.
  destruct (verifies_under token i2) eqn:V2.
  - right. apply verify_collision; auto using new_well_formed.
  - left. apply (verifyInitData_401 e i2 token Ht).
    intros H. apply verifies_under_spec in H. congruence.
Qed.

(** X2.  Changing the value of any pair not named [hash] in a credential
    that verifies under the bot token gets the 401 answer, unless
    HMAC-SHA256 collides on the two check strings. *)
Theorem tampered_value_rejected (e : env) (token initData tampered : jsstring)
    (before after : list entry) (k c v : jsstring) :
  BOT_TOKEN e = Some token ->
  verifies_under token initData = true ->
  URLSearchParams.new initData = before ++ (k, c) :: after ->
  URLSearchParams.new tampered = before ++ (k, v) :: after ->
  js_eqb k (lit "hash") = false ->
  c <> v ->
  verifyInitData e tampered = Json401
  \/ hmac_collision (derive_key token)
       (utf8_encode (canonicalize (URLSearchParams.new initData)))
       (utf8_encode (canonicalize (URLSearchParams.new tampered))).
Proof.
  intros Ht Hv H1 H2 Hk Hne.
  apply changed_check_string_rejected; try assumption.
  - rewrite H1, H2. now rewrite !get_skip by exact Hk.
  - rewrite H1, H2. now apply alteration_changes_check_string.
Qed.

Lemma tampered_value_rejected_witness :
  verifyInitData example_env tampered_credential = Json401
  \/ hmac_collision (derive_key (lit "S1"))
       (utf8_encode (canonicalize (URLSearchParams.new example_credential)))
       (utf8_encode (canonicalize (URLSearchParams.new tampered_credential))).
Proof.
  apply (tampered_value_rejected example_env (lit "S1") example_credential
           tampered_credential
           (firstn 1 (URLSearchParams.new example_credential))
           (skipn 2 (URLSearchParams.new example_credential))
           (lit "query_id") (lit "AAA") (lit "AAB")).
  - reflexivity.
  - vm_compute. reflexivity.
  - vm_compute. reflexivity.
  - vm_compute. reflexivity.
  - reflexivity.
  - discriminate.
Defined.

(** X3.  Adding a pair not named [hash] to a credential that verifies, or
    taking one out of it, gets the 401 answer, unless HMAC-SHA256
    collides. *)
Theorem added_or_removed_pair_rejected (e : env) (token shorter longer : jsstring)
    (before after : list entry) (p : entry) :
  BOT_TOKEN e = Some token ->
  URLSearchParams.new shorter = before ++ after ->
  URLSearchParams.new longer = before ++ p :: after ->
  named (lit "hash") p = false ->
  (verifies_under token shorter = true ->
   verifyInitData e longer = Json401
   \/ hmac_collision (derive_key token)
        (utf8_encode (canonicalize (URLSearchParams.new shorter)))
        (utf8_encode (canonicalize (URLSearchParams.new longer))))
  /\ (verifies_under token longer = true ->
      verifyInitData e shorter = Json401
      \/ hmac_collision (derive_key token)
           (utf8_encode (canonicalize (URLSearchParams.new longer)))
           (utf8_encode (canonicalize (URLSearchParams.new shorter)))).
Proof.
  intros Ht H1 H2 Hp.
  assert (Hg : URLSearchParams.get (lit "hash") (URLSearchParams.new shorter)
               = URLSearchParams.get (lit "hash") (URLSearchParams.new longer)).
  { rewrite H1, H2. now rewrite get_skip. }
  assert (Hne : canonicalize (URLSearchParams.new shorter)
                <> canonicalize (URLSearchParams.new longer)).
  { rewrite H1, H2. now apply removal_changes_check_string. }
  split; intros Hv; apply changed_check_string_rejected; auto.
Qed.

Lemma added_or_removed_pair_rejected_witness :
  (verifies_under (lit "S1") example_credential = true ->
   verifyInitData example_env padded_credential = Json401
   \/ hmac_collision (derive_key (lit "S1"))
        (utf8_encode (canonicalize (URLSearchParams.new example_credential)))
        (utf8_encode (canonicalize (URLSearchParams.new padded_credential))))
  /\ (verifies_under (lit "S1") padded_credential = true ->
      verifyInitData example_env example_credential = Json401
      \/ hmac_collision (derive_key (lit "S1"))
           (utf8_encode (canonicalize (URLSearchParams.new padded_credential)))
           (utf8_encode (canonicalize (URLSearchParams.new example_credential)))).
Proof.
  apply (added_or_removed_pair_rejected example_env (lit "S1") example_credential
           padded_credential
           (firstn 1 (URLSearchParams.new example_credential))
           (skipn 1 (URLSearchParams.new example_credential))
           (lit "is_admin", lit "1")).
  - reflexivity.
  - vm_compute. reflexivity.
  - vm_compute. reflexivity.
  - reflexivity.
Defined.

(* ================================================================== *)
(** ** What the answer looks like *)
(* ================================================================== *)

Lemma get_client_id_of_200 (e : env) (initData out : jsstring) :
  verifyInitData e initData = Json200 out ->
  URLSearchParams.get (lit "client_id") (URLSearchParams.new out)
  = match URLSearchParams.get (lit "client_id") (URLSearchParams.new initData) with
    | Some v => Some v
    | None => Some (to_usv (ToString (CLIENT_ID e)))
    end.
Proof.
  intros H. apply new_of_200 in H as (secret & _ & ->).
  rewrite !get_values, values_of_app.
  change (values_of (lit "client_id") [(lit "hash", _)]) with (@nil jsstring).
  rewrite app_nil_r. unfold values_of at 1.
  unfold reissued_params, URLSearchParams.append.
  rewrite sort_stable, filter_app, sort_stable, client_id_literal_usv.
  rewrite filter_named_delete_other by reflexivity.
  rewrite map_app. fold (values_of (lit "client_id") (URLSearchParams.new initData)).
  now destruct (values_of (lit "client_id") (URLSearchParams.new initData)).
Qed.

(** X4.  Reading [client_id] off a reissued credential with [get] returns a
    [client_id] the input already carried, if it carried one, and the
    configured identifier only otherwise: the pair the handler appends
    sorts behind the input's own. *)
Theorem client_id_lookup (e : env) (initData out : jsstring) :
  verifyInitData e initData = Json200 out ->
  URLSearchParams.get (lit "client_id") (URLSearchParams.new out)
  = match URLSearchParams.get (lit "client_id") (URLSearchParams.new initData) with
    | Some v => Some v
    | None => Some (to_usv (ToString (CLIENT_ID e)))
    end.
Proof. apply get_client_id_of_200. Qed.

Lemma client_id_lookup_witness :
  verifyInitData example_env own_client_id_credential = Json200 own_client_id_reissued
  /\ URLSearchParams.get (lit "client_id") (URLSearchParams.new own_client_id_reissued)
     = Some (lit "EVIL").
Proof.
  assert (H : verifyInitData example_env own_client_id_credential
              = Json200 own_client_id_reissued) by (vm_compute; reflexivity).
  split; [exact H|].
  rewrite (client_id_lookup example_env own_client_id_credential
             own_client_id_reissued H).
  vm_compute. reflexivity.
Defined.

Lemma upper_hex_digit_unreserved (d : N) :
  d < 16 -> is_unreserved (upper_hex_digit d) = true.
Proof.
  intros Hd. unfold upper_hex_digit, is_unreserved, is_digit, in_range.
  destruct (N.ltb_spec d 10).
  - replace ((48 <=? 48 + d) && (48 + d <=? 57)) with true by (symmetry; decide_test).
    reflexivity.
  - replace ((65 <=? 55 + d) && (55 + d <=? 90)) with true by (symmetry; decide_test).
    now rewrite orb_true_r.
Qed.

Lemma percent_encode_octet_wire (b : N) :
  Forall (fun u => wire_unit u = true) (percent_encode_octet b).
Proof.
  unfold percent_encode_octet.
  destruct (b =? SPACE); [repeat constructor|].
  destruct (is_unreserved b) eqn:Hu.
  - constructor; [|constructor]. unfold wire_unit. now rewrite Hu.
  - repeat apply Forall_cons; try apply Forall_nil; [reflexivity | |];
      unfold wire_unit; rewrite upper_hex_digit_unreserved;
      try reflexivity; apply N.mod_lt; discriminate.
Qed.

Lemma encode_component_wire (s : jsstring) :
  Forall (fun u => wire_unit u = true) (encode_component s).
Proof.
  unfold encode_component. induction (utf8_encode s) as [|b bs IH]; [constructor|].
  cbn [flat_map]. apply Forall_app. split; [apply percent_encode_octet_wire | exact IH].
Qed.

Lemma serialize_wire (l : list entry) :
  Forall (fun u => wire_unit u = true) (urlencoded_serialize l).
Proof.
  assert (Hp : forall p, Forall (fun u => wire_unit u = true) (serialize_pair p)).
  { intros p. unfold serialize_pair. apply Forall_app. split; [|constructor];
      [apply encode_component_wire | reflexivity | apply encode_component_wire]. }
  induction l as [|p l IH]; [constructor|].
  destruct l as [|q l]; [apply Hp|].
  rewrite serialize_cons. apply Forall_app. split; [apply Hp|].
  constructor; [reflexivity | exact IH].
Qed.

(** X5.  A reissued credential is written with ASCII letters, digits and
    [* - . _ % + = &] only: no space, control character, quote or code
    unit outside ASCII, whatever the input and the client identifier
    hold. *)
Theorem reissued_alphabet (e : env) (initData out : jsstring) :
  verifyInitData e initData = Json200 out ->
  Forall (fun u => wire_unit u = true) out.
Proof.
  intros H. apply verifyInitData_200 in H as (token & secret & _ & _ & _ & ->).
  apply serialize_wire.
Qed.

Lemma reissued_alphabet_witness :
  Forall (fun u => wire_unit u = true) bad_escape_reissued.
Proof.
  apply (reissued_alphabet example_env bad_escape_credential).
  vm_compute. reflexivity.
Defined.

Lemma be_bytes_length (n : nat) (x : N) : List.length (SHA256.be_bytes n x) = n.
Proof.
  revert x. induction n as [|n IH]; intros x; cbn [SHA256.be_bytes]; [reflexivity|].
  rewrite length_app, IH. cbn [List.length]. lia.
Qed.

Lemma hmac_sha256_length (key msg : bytes) :
  List.length (hmac_sha256 key msg) = 32%nat.
Proof.
  unfold hmac_sha256, SHA256.digest. cbv zeta. cbn [flat_map].
  rewrite !length_app, !be_bytes_length. reflexivity.
Qed.

Lemma hex_length (bs : bytes) :
  List.length (hex bs) = (2 * List.length bs)%nat.
Proof.
  unfold hex. induction bs as [|b bs IH]; [reflexivity|].
  cbn [flat_map app List.length]. rewrite IH. lia.
Qed.

Lemma sign_shaped (check_string : jsstring) (key : bytes) :
  hash_shaped (sign check_string key) = true.
Proof.
  unfold hash_shaped, sign. rewrite hex_length, hmac_sha256_length.
  cbn [Nat.mul Nat.add Nat.eqb andb].
  apply forallb_forall. intros u Hu.
  pose proof (hex_lowercase (hmac_sha256 key (utf8_encode check_string))) as H.
  rewrite Forall_forall in H. now apply H.
Qed.

(** X6.  A credential whose [hash] value is not sixty-four lowercase
    hexadecimal digits -- empty, shortened, in upper case -- is answered
    with 401 whatever it carries: the comparison is exact. *)
Theorem ill_shaped_hash_rejected (e : env) (initData token h : jsstring) :
  BOT_TOKEN e = Some token ->
  URLSearchParams.get (lit "hash") (URLSearchParams.new initData) = Some h ->
  hash_shaped h = false ->
  verifyInitData e initData = Json401.
Proof.
  intros Ht Hg Hs. apply (verifyInitData_401 e initData token Ht).
  rewrite Hg. intros E. injection E as ->. now rewrite sign_shaped in Hs.
Qed.

Lemma ill_shaped_hash_rejected_witness :
  verifyInitData example_env uppercase_hash_credential = Json401.
Proof.
  apply (ill_shaped_hash_rejected example_env uppercase_hash_credential (lit "S1")
           (lit "EAEDD5A1B0AFE9F102891DF106F8A8A5B06F960C9E40BFC8F31DB690CFB6865A"));
    vm_compute; reflexivity.
Defined.

(** X7.  A reissued credential carries exactly one pair named [hash], and
    its value is sixty-four lowercase hexadecimal digits; the hash the input
    came with is gone. *)
Theorem reissued_hash_shape (e : env) (initData out : jsstring) :
  verifyInitData e initData = Json200 out ->
  exists h,
    values_of (lit "hash") (URLSearchParams.new out) = [h]
    /\ hash_shaped h = true.
Proof.
  intros H. apply new_of_200 in H as (secret & _ & ->).
  eexists. split; [|apply sign_shaped].
  rewrite values_of_app. unfold values_of at 1.
  replace (filter (named (lit "hash")) (reissued_params e initData)) with (@nil entry).
  - reflexivity.
  - pose proof (reissued_no_hash e initData) as Hn.
    induction Hn as [|p t Hp _ IH]; [reflexivity|]. cbn [filter]. now rewrite Hp.
Qed.

Lemma reissued_hash_shape_witness :
  exists h,
    values_of (lit "hash") (URLSearchParams.new example_reissued) = [h]
    /\ hash_shaped h = true.
Proof.
  apply (reissued_hash_shape example_env example_credential example_reissued).
  vm_compute. reflexivity.
Defined.

(* ================================================================== *)
(** ** Where the check string is ambiguous *)
(* ================================================================== *)

Lemma join_lines_merge (x y : jsstring) (rest : list jsstring) :
  join_lines (x :: y :: rest) = join_lines ((x ++ LINE_FEED :: y) :: rest).
Proof.
  destruct rest as [|z rest]; [reflexivity|].
  transitivity (x ++ LINE_FEED :: (y ++ LINE_FEED :: join_lines (z :: rest)));
    [reflexivity|].
  transitivity ((x ++ LINE_FEED :: y) ++ LINE_FEED :: join_lines (z :: rest));
    [|reflexivity].
  now rewrite <- app_assoc.
Qed.

Lemma join_lines_app_merge (a : list jsstring) (x y : jsstring) (rest : list jsstring) :
  join_lines (a ++ x :: y :: rest) = join_lines (a ++ (x ++ LINE_FEED :: y) :: rest).
Proof.
  induction a as [|p a IH]; cbn [app]; [apply join_lines_merge|].
  rewrite !join_lines_cons by (destruct a; discriminate). now rewrite IH.
Qed.

(** X8.  The check string does not tell a newline inside a value from the
    boundary between two pairs: when the sorted pairs of one credential
    hold [k=v] directly before [k2=v2] and those of another hold the single
    pair [k] with value [v], newline, [k2=v2] instead, the two have the same
    check string, so with the same hash both are refused or neither is. *)
Theorem newline_merges_pairs (e : env) (i1 i2 : jsstring) (a b : list entry)
    (k v k2 v2 : jsstring) :
  URLSearchParams.get (lit "hash") (URLSearchParams.new i1)
  = URLSearchParams.get (lit "hash") (URLSearchParams.new i2) ->
  URLSearchParams.sort (URLSearchParams.delete (lit "hash") (URLSearchParams.new i1))
  = a ++ (k, v) :: (k2, v2) :: b ->
  URLSearchParams.sort (URLSearchParams.delete (lit "hash") (URLSearchParams.new i2))
  = a ++ (k, v ++ LINE_FEED :: render (k2, v2)) :: b ->
  canonicalize (URLSearchParams.new i1) = canonicalize (URLSearchParams.new i2)
  /\ (verifyInitData e i1 = Json401 <-> verifyInitData e i2 = Json401).
Proof.
  intros Hg H1 H2.
  assert (Hc : canonicalize (URLSearchParams.new i1)
               = canonicalize (URLSearchParams.new i2)).
  { unfold canonicalize. rewrite H1, H2, !dataCheckString_join, !map_app.
    cbn [List.map]. rewrite join_lines_app_merge. do 2 f_equal.
    unfold render. cbn [fst snd]. now rewrite <- app_assoc. }
  split; [exact Hc|].
  rewrite !verifyInitData_cases, Hg, Hc.
  destruct (BOT_TOKEN e); [|tauto].
  destruct (strict_neq _ _); [tauto|].
  destruct (CLIENT_SECRET e); split; discriminate.
Qed.

Lemma newline_merges_pairs_witness :
  canonicalize (URLSearchParams.new small_credential)
  = canonicalize (URLSearchParams.new merged_credential)
  /\ (verifyInitData example_env small_credential = Json401
      <-> verifyInitData example_env merged_credential = Json401).
Proof.
  apply (newline_merges_pairs example_env small_credential merged_credential
           [] [] (lit "a") (lit "2") (lit "b") (lit "1"));
    vm_compute; reflexivity.
Defined.

(** Both are in fact reissued. *)
Example merged_credential_accepted :
  verifies_under (lit "S1") small_credential = true
  /\ verifies_under (lit "S1") merged_credential = true
  /\ URLSearchParams.new merged_credential
     = [(lit "a", lit "2" ++ [LINE_FEED] ++ lit "b=1");
        (lit "hash", lit "eaedd5a1b0afe9f102891df106f8a8a5b06f960c9e40bfc8f31db690cfb6865a")].
Proof. repeat apply conj; vm_compute; reflexivity. Qed.

(* ================================================================== *)
(** ** The edge of the input, and chaining *)
(* ================================================================== *)

Lemma to_usv_head (s : jsstring) :
  hd_error s <> Some QUESTION -> hd_error (to_usv s) <> Some QUESTION.
Proof.
  destruct s as [|u t]; [intros _; discriminate|].
  cbn [hd_error to_usv]. intros Hu.
  destruct (is_high u) eqn:Hh.
  - destruct t as [|l t']; [discriminate|].
    destruct (is_low l); cbn [hd_error]; [|discriminate].
    intros E. injection E as ->. discriminate.
  - destruct (is_low u); [discriminate|].
    destruct (u <? 0x10000); [exact Hu | discriminate].
Qed.

(** X9.  One question mark in front of the credential is ignored: the
    answer is that for the rest of the string. *)
Theorem leading_question_mark_ignored (e : env) (initData : jsstring) :
  hd_error initData <> Some QUESTION ->
  verifyInitData e (QUESTION :: initData) = verifyInitData e initData.
Proof.
  intros Hq. apply to_usv_head in Hq.
  assert (Hn : URLSearchParams.new (QUESTION :: initData) = URLSearchParams.new initData).
  { unfold URLSearchParams.new. cbv zeta.
    change (to_usv (QUESTION :: initData)) with (QUESTION :: to_usv initData).
    cbv iota. rewrite N.eqb_refl.
    destruct (to_usv initData) as [|c rest]; [reflexivity|].
    cbn [hd_error] in Hq. destruct (N.eqb_spec c QUESTION); [|reflexivity].
    subst c. contradiction. }
  rewrite !verifyInitData_cases. unfold reissued_params. now rewrite Hn.
Qed.

Lemma leading_question_mark_ignored_witness :
  verifyInitData example_env (QUESTION :: example_credential)
  = verifyInitData example_env example_credential.
Proof.
  apply leading_question_mark_ignored. vm_compute. discriminate.
Defined.

(** X10.  Re-signers chain: a credential reissued under a client secret is
    accepted by a handler whose bot token is that secret (and whose own
    client secret is set), which reissues it in turn. *)
Theorem reissue_chains (e1 e2 : env) (initData out secret secret2 : jsstring) :
  verifyInitData e1 initData = Json200 out ->
  CLIENT_SECRET e1 = Some secret ->
  BOT_TOKEN e2 = Some secret ->
  CLIENT_SECRET e2 = Some secret2 ->
  exists out2,
    verifyInitData e2 out = Json200 out2
    /\ verifies_under secret2 out2 = true.
Proof.
  intros H Hs1 Ht2 Hs2.
  assert (Hv : verifies_under secret out = true).
  { apply new_of_200 in H as (secret' & Hs' & Hnew).
    assert (secret' = secret) by congruence. subst secret'.
    apply verifies_under_spec. rewrite Hnew.
    rewrite get_app_none by apply reissued_no_hash.
    cbn [URLSearchParams.get]. change (js_eqb (lit "hash") (lit "hash")) with true.
    cbv iota. now rewrite canonicalize_reissued. }
  assert (H2 : exists out2, verifyInitData e2 out = Json200 out2).
  { rewrite verifyInitData_cases, Ht2, Hs2.
    apply verifies_under_spec, strict_neq_false in Hv. rewrite Hv. eauto. }
  destruct H2 as [out2 H2]. exists out2. split; [exact H2|].
  apply new_of_200 in H2 as (secret' & Hs' & Hnew).
  assert (secret' = secret2) by congruence. subst secret'.
  apply verifies_under_spec. rewrite Hnew.
  rewrite get_app_none by apply reissued_no_hash.
  cbn [URLSearchParams.get]. change (js_eqb (lit "hash") (lit "hash")) with true.
  cbv iota. now rewrite canonicalize_reissued.
Qed.

Lemma reissue_chains_witness :
  exists out2,
    verifyInitData downstream_env example_reissued = Json200 out2
    /\ verifies_under (lit "S3") out2 = true.
Proof.
  apply (reissue_chains example_env downstream_env example_credential
           example_reissued (lit "S2") (lit "S3")).
  - vm_compute. reflexivity.
  - reflexivity.
  - reflexivity.
  - reflexivity.
Defined.

(** X11.  Without a configured client identifier the handler still
    reissues, and binds the credential to the text "undefined". *)
Theorem absent_client_id_is_undefined (e : env) (initData out : jsstring) :
  CLIENT_ID e = None ->
  verifyInitData e initData = Json200 out ->
  In (lit "client_id", lit "undefined") (URLSearchParams.new out)
  /\ (URLSearchParams.get (lit "client_id") (URLSearchParams.new initData) = None ->
      URLSearchParams.get (lit "client_id") (URLSearchParams.new out)
      = Some (lit "undefined")).
Proof.
  intros Hc H. split.
  - destruct (new_of_200 _ _ _ H) as (secret & _ & ->).
    apply in_or_app. left.
    eapply Permutation_in; [symmetry; apply reissued_perm|].
    apply in_or_app. right. rewrite Hc. now left.
  - intros Hg. rewrite (get_client_id_of_200 _ _ _ H), Hg, Hc. reflexivity.
Qed.

Lemma absent_client_id_is_undefined_witness :
  In (lit "client_id", lit "undefined") (URLSearchParams.new no_client_id_reissued)
  /\ (URLSearchParams.get (lit "client_id") (URLSearchParams.new small_credential) = None ->
      URLSearchParams.get (lit "client_id") (URLSearchParams.new no_client_id_reissued)
      = Some (lit "undefined")).
Proof.
  apply (absent_client_id_is_undefined no_client_id_env small_credential
           no_client_id_reissued).
  - reflexivity.
  - vm_compute. reflexivity.
Defined.

(** X12.  What is reissued does not depend on the bot token or on the hash
    that came in: two accepted requests with the same values under every
    other name, the same client identifier and the same client secret get
    the same string. *)
Theorem reissue_ignores_upstream (e1 e2 : env) (i1 i2 out1 out2 : jsstring) :
  verifyInitData e1 i1 = Json200 out1 ->
  verifyInitData e2 i2 = Json200 out2 ->
  CLIENT_ID e1 = CLIENT_ID e2 ->
  CLIENT_SECRET e1 = CLIENT_SECRET e2 ->
  (forall k, js_eqb k (lit "hash") = false ->
             values_of k (URLSearchParams.new i1) = values_of k (URLSearchParams.new i2)) ->
  out1 = out2.
Proof.
  intros H1 H2 Hc Hs Hv.
  apply verifyInitData_200 in H1 as (t1 & s1 & _ & Hs1 & _ & ->).
  apply verifyInitData_200 in H2 as (t2 & s2 & _ & Hs2 & _ & ->).
  assert (s1 = s2) by congruence. subst s2.
  unfold reissued_params. now rewrite Hc, (sort_delete_same _ _ Hv).
Qed.

Lemma reissue_ignores_upstream_witness :
  verifyInitData other_token_env other_token_credential = Json200 example_reissued.
Proof.
  assert (H : exists out, verifyInitData other_token_env other_token_credential
                          = Json200 out).
  { eexists. vm_compute. reflexivity. }
  destruct H as [out H]. rewrite H. f_equal.
  apply (reissue_ignores_upstream other_token_env example_env
           other_token_credential example_credential out example_reissued).
  - exact H.
  - vm_compute. reflexivity.
  - reflexivity.
  - reflexivity.
  - intros k Hk.
    compute_pairs other_token_credential. compute_pairs example_credential.
    by_name k.
Defined.
